(** * The self-refreshing access token of [refresh.go]

    [refresh.go] keeps one access token fresh in the background and hands
    it to any number of clients.  It does so twice: [Token] owns the slot
    inside one goroutine and hands it out over an unbuffered channel from a
    [select] loop; [MToken] keeps the slot in two struct fields guarded by a
    [sync.RWMutex].

    Both cells are embedded as labelled transition systems.  A state holds
    the struct fields, the locals and the program point of the one
    [refreshToken] goroutine, the clients that are blocked inside [Get], the
    cancellation flag of the context and a discrete clock.  A label is one
    scheduling decision; [step] executes it when the Go semantics allows it
    and returns [None] when the goroutine concerned would block.  No step is
    urgent: Go bounds neither the delay before a runnable goroutine runs nor
    the delay between the deadline of a timer and the delivery of its value,
    and a [select] with several ready cases takes any one of them.  Steps
    take no time; time passes in [Tick] steps only, so that the duration of
    an Authorizer call is the time that passes between its call and its
    return.  Bookkeeping fields ([calls], [in_flight], [fetchlog],
    [readlog]) record what an instrumented Authorizer and instrumented
    clients would observe; the program never reads them.

    The simulated endpoint [authFunc] is embedded as a function of what one
    call meets: the outcome of [rand.Read], of the two loads of the shared
    flag and of the two random comparisons. *)

From Stdlib Require Import ZArith NArith String List Bool Lia.
From Stdlib.Strings Require Ascii Byte.
Import ListNotations.
Open Scope Z_scope.

(** ** Go values used by the program *)

Module Go.

(** [time.Duration] is an [int64] count of nanoseconds. *)
Definition Duration := Z.

Definition min_int64 : Z := - 2 ^ 63.
Definition max_int64 : Z := 2 ^ 63 - 1.

Definition is_int64 (z : Z) : Prop := min_int64 <= z <= max_int64.

(** Two's complement wrap-around of an [int64] result. *)
Definition wrap64 (z : Z) : Z := (z + 2 ^ 63) mod 2 ^ 64 - 2 ^ 63.

(** [a - b] on [int64]. *)
Definition sub64 (a b : Z) : Z := wrap64 (a - b).

Definition Millisecond : Duration := 1000000.

(** An [error] value; [None] is [nil]. *)
Definition error := option string.

(** [time.After(d)] called at instant [now]: the instant from which the
    returned channel can be received from.  A duration that is zero or
    negative makes the channel ready at once. *)
Definition After (now : Z) (d : Duration) : Z := now + Z.max 0 d.

(** Membership test on the clients parked on a channel or a lock. *)
Definition parked (c : nat) (l : list nat) : bool := existsb (Nat.eqb c) l.

Definition unpark (c : nat) (l : list nat) : list nat :=
  filter (fun x => negb (Nat.eqb c x)) l.

End Go.

Import Go.

(** [lifeSpanSafetyMargin = 10 * time.Millisecond] *)
Definition lifeSpanSafetyMargin : Duration := 10 * Millisecond.

(** [expiration - lifeSpanSafetyMargin], the argument that l.216, 234, 437
    and 460 hand to [time.After]. *)
Definition timer_arg (expiration : Duration) : Duration :=
  sub64 expiration lifeSpanSafetyMargin.

(** [type tokenResponse struct { Token string; Err error }] *)
Record tokenResponse := mkResp { Token : string; Err : error }.

(** The Authorizer, [func() (string, time.Duration, error)].  The function
    is effectful; it is represented by what its [k]-th call returns. *)
Definition Authorizer := nat -> string * Duration * error.

(** What an instrumented Authorizer records when a call returns. *)
Record FetchRec := mkFetch {
  f_index : nat;           (* which call *)
  f_done : Z;              (* instant at which it returned *)
  f_token : string;
  f_validFor : Duration;
  f_err : error
}.

Definition f_resp (f : FetchRec) : tokenResponse := mkResp (f_token f) (f_err f).

(** fetch-completion time + validFor - safetyMargin, as a number. *)
Definition computed_expiry (f : FetchRec) : Z :=
  f_done f + f_validFor f - lifeSpanSafetyMargin.

(** What an instrumented client records when its [Get] returns. *)
Record ReadRec := mkRead {
  r_client : nat;
  r_time : Z;              (* instant at which Get returned *)
  r_resp : tokenResponse;  (* what it returned *)
  r_timer : option Z       (* the deadline of the loop's timer at that instant *)
}.

(** Program points of a [refreshToken] goroutine. *)
Inductive pcT :=
| AtStart       (* spawned by [go], nothing executed yet *)
| WantLock      (* MToken only: inside [m.mu.Lock()], waiting for readers *)
| InAuthorize   (* inside a call of [authorize] *)
| InSelect      (* waiting in the [select] statement *)
| Returned.     (* left through [return] *)

Definition pc_eqb (a b : pcT) : bool :=
  match a, b with
  | AtStart, AtStart | WantLock, WantLock | InAuthorize, InAuthorize
  | InSelect, InSelect | Returned, Returned => true
  | _, _ => false
  end.

(** Has the deadline of the timer channel [expired] passed at instant
    [now]?  From then on the channel can deliver its value. *)
Definition fired (expired : option Z) (now : Z) : bool :=
  match expired with
  | Some deadline => deadline <=? now
  | None => false
  end.

(** ** The channel-based cell, [Token] *)

Module Token.

Record state := mk {
  (* struct Token *)
  authorize : Authorizer;
  receivers : list nat;      (* clients blocked in [<-a.accessToken] *)
  (* the goroutine [refreshToken] *)
  pc : pcT;
  token : string;
  expiration : Duration;
  err : error;
  expired : option Z;        (* deadline of the timer channel, once armed *)
  (* environment *)
  ctx_done : bool;           (* [ctx.Done()] is closed *)
  now : Z;
  (* instrumentation *)
  calls : nat;               (* Authorizer calls started *)
  in_flight : nat;           (* Authorizer calls started and not returned *)
  fetchlog : list FetchRec;  (* newest first *)
  readlog : list ReadRec     (* newest first *)
}.

(** [NewToken(ctx, auth)]: allocates the struct with an unbuffered
    channel, spawns [refreshToken] and returns.  [ctx] tells whether the
    context handed in is already cancelled. *)
Definition NewToken (ctx : bool) (auth : Authorizer) : state :=
  mk auth [] AtStart EmptyString 0 None None ctx 0 0%nat 0%nat [] [].

Inductive event :=
| Tick (d : Z)        (* the clock advances by [d > 0] *)
| Cancel              (* the context is cancelled *)
| GetBegin (c : nat)  (* l.253: client [c] enters [Get] and waits to receive *)
| CallInitial         (* l.213: the goroutine starts and calls [a.authorize()] *)
| AuthorizeReturns    (* l.213, 216 or l.227-234: the call returns, the results
                         are assigned, the timer is armed, [select] is entered *)
| CaseSend (c : nat)  (* l.221: [select] sends the slot to client [c], whose
                         [Get] returns it, l.254 *)
| CaseExpired         (* l.224-227: [select] receives from [expired] and calls
                         [a.authorize()] *)
| CaseDone.           (* l.235-236: [select] receives from [ctx.Done()], returns *)

Definition step (s : state) (e : event) : option state :=
  match e with
  | Tick d =>
      if 0 <? d then
        Some (mk (authorize s) (receivers s) (pc s) (token s) (expiration s)
                 (err s) (expired s) (ctx_done s) (now s + d)
                 (calls s) (in_flight s) (fetchlog s) (readlog s))
      else None
  | Cancel =>
      Some (mk (authorize s) (receivers s) (pc s) (token s) (expiration s)
               (err s) (expired s) true (now s)
               (calls s) (in_flight s) (fetchlog s) (readlog s))
  | GetBegin c =>
      if parked c (receivers s) then None
      else
        Some (mk (authorize s) (c :: receivers s) (pc s) (token s)
                 (expiration s) (err s) (expired s) (ctx_done s) (now s)
                 (calls s) (in_flight s) (fetchlog s) (readlog s))
  | CallInitial =>
      match pc s with
      | AtStart =>
          Some (mk (authorize s) (receivers s) InAuthorize (token s)
                   (expiration s) (err s) (expired s) (ctx_done s) (now s)
                   (S (calls s)) (S (in_flight s)) (fetchlog s) (readlog s))
      | _ => None
      end
  | AuthorizeReturns =>
      match pc s with
      | InAuthorize =>
          let k := Nat.pred (calls s) in
          let '(tok, lifespan, e) := authorize s k in
          Some (mk (authorize s) (receivers s) InSelect tok lifespan e
                   (Some (After (now s) (timer_arg lifespan)))
                   (ctx_done s) (now s)
                   (calls s) (Nat.pred (in_flight s))
                   (mkFetch k (now s) tok lifespan e :: fetchlog s)
                   (readlog s))
      | _ => None
      end
  | CaseSend c =>
      match pc s with
      | InSelect =>
          if parked c (receivers s) then
            Some (mk (authorize s) (unpark c (receivers s)) InSelect (token s)
                     (expiration s) (err s) (expired s) (ctx_done s) (now s)
                     (calls s) (in_flight s) (fetchlog s)
                     (mkRead c (now s) (mkResp (token s) (err s)) (expired s)
                        :: readlog s))
          else None
      | _ => None
      end
  | CaseExpired =>
      match pc s with
      | InSelect =>
          if fired (expired s) (now s) then
            Some (mk (authorize s) (receivers s) InAuthorize (token s)
                     (expiration s) (err s) (expired s) (ctx_done s) (now s)
                     (S (calls s)) (S (in_flight s)) (fetchlog s) (readlog s))
          else None
      | _ => None
      end
  | CaseDone =>
      match pc s with
      | InSelect =>
          if ctx_done s then
            Some (mk (authorize s) (receivers s) Returned (token s)
                     (expiration s) (err s) (expired s) (ctx_done s) (now s)
                     (calls s) (in_flight s) (fetchlog s) (readlog s))
          else None
      | _ => None
      end
  end.

(** A schedule, executed from left to right. *)
Fixpoint run (s : state) (tr : list event) : option state :=
  match tr with
  | [] => Some s
  | e :: tr' =>
      match step s e with
      | Some s' => run s' tr'
      | None => None
      end
  end.

Definition reachable (ctx : bool) (auth : Authorizer) (s : state) : Prop :=
  exists tr, run (NewToken ctx auth) tr = Some s.

Definition is_return (e : event) : bool :=
  match e with
  | AuthorizeReturns => true
  | _ => false
  end.

(** Schedules during which no Authorizer call returns. *)
Definition no_return (tr : list event) : bool :=
  forallb (fun e => negb (is_return e)) tr.

Definition moves_on (e : event) : bool :=
  match e with
  | CallInitial | AuthorizeReturns | CaseExpired | CaseDone => true
  | _ => false
  end.

(** Schedules during which the goroutine stays where it is: the clock and
    the context move, clients arrive and are served. *)
Definition waiting (tr : list event) : bool :=
  forallb (fun e => negb (moves_on e)) tr.

(** [n] rounds of the expiry case, each followed by the return of the
    call, with no [Tick] in between. *)
Fixpoint spin (n : nat) : list event :=
  match n with
  | O => []
  | S n' => CaseExpired :: AuthorizeReturns :: spin n'
  end.

End Token.

(** ** The mutex-based cell, [MToken] *)

Module MToken.

Record state := mk {
  (* struct MToken *)
  token : string;
  tokenErr : error;
  writer : bool;             (* [mu] is locked for writing *)
  readers : list nat;        (* clients holding [mu] for reading *)
  authorize : Authorizer;
  (* the goroutine [refreshToken] *)
  pc : pcT;
  expiration : Duration;
  expired : option Z;
  (* environment *)
  ctx_done : bool;
  now : Z;
  (* instrumentation *)
  calls : nat;
  in_flight : nat;
  fetchlog : list FetchRec;
  readlog : list ReadRec
}.

(** [NewMToken(ctx, auth)].  [authFunc] stands for the package-level
    function of that name, the simulated endpoint of the demo.  The struct
    literal reads [authorize: authFunc], so that is what is stored. *)
Definition NewMToken (authFunc : Authorizer) (ctx : bool) (auth : Authorizer)
  : state :=
  mk EmptyString None false [] authFunc AtStart 0 None ctx 0 0%nat 0%nat [] [].

Inductive event :=
| Tick (d : Z)          (* the clock advances by [d > 0] *)
| Cancel                (* the context is cancelled *)
| RLock (c : nat)       (* l.422: client [c] obtains the read lock in [Get] *)
| GetReturns (c : nat)  (* l.424, 423: [c] reads both fields, unlocks, returns *)
| LockInitial           (* l.432: the goroutine starts and calls [m.mu.Lock()] *)
| LockAcquired          (* l.432-433 or l.446-448: the write lock is obtained
                           and [m.authorize()] is called *)
| AuthorizeReturns      (* l.433-437 or l.448-460: the call returns, the fields
                           are assigned, the lock is released, the timer is
                           armed, [select] is entered *)
| CaseExpired           (* l.442-446: [select] receives from [expired] and
                           calls [m.mu.Lock()] *)
| CaseDone.             (* l.461-462: [select] receives from [ctx.Done()] *)

Definition step (s : state) (e : event) : option state :=
  match e with
  | Tick d =>
      if 0 <? d then
        Some (mk (token s) (tokenErr s) (writer s) (readers s) (authorize s)
                 (pc s) (expiration s) (expired s) (ctx_done s) (now s + d)
                 (calls s) (in_flight s) (fetchlog s) (readlog s))
      else None
  | Cancel =>
      Some (mk (token s) (tokenErr s) (writer s) (readers s) (authorize s)
               (pc s) (expiration s) (expired s) true (now s)
               (calls s) (in_flight s) (fetchlog s) (readlog s))
  | RLock c =>
      (* a reader waits while the lock is held for writing, and also while
         a writer is waiting for it *)
      if writer s || pc_eqb (pc s) WantLock || parked c (readers s) then None
      else
        Some (mk (token s) (tokenErr s) (writer s) (c :: readers s)
                 (authorize s) (pc s) (expiration s) (expired s) (ctx_done s)
                 (now s) (calls s) (in_flight s) (fetchlog s) (readlog s))
  | GetReturns c =>
      if parked c (readers s) then
        Some (mk (token s) (tokenErr s) (writer s) (unpark c (readers s))
                 (authorize s) (pc s) (expiration s) (expired s) (ctx_done s)
                 (now s) (calls s) (in_flight s) (fetchlog s)
                 (mkRead c (now s) (mkResp (token s) (tokenErr s)) (expired s)
                    :: readlog s))
      else None
  | LockInitial =>
      match pc s with
      | AtStart =>
          Some (mk (token s) (tokenErr s) (writer s) (readers s) (authorize s)
                   WantLock (expiration s) (expired s) (ctx_done s) (now s)
                   (calls s) (in_flight s) (fetchlog s) (readlog s))
      | _ => None
      end
  | LockAcquired =>
      match pc s, readers s with
      | WantLock, [] =>
          Some (mk (token s) (tokenErr s) true [] (authorize s)
                   InAuthorize (expiration s) (expired s) (ctx_done s) (now s)
                   (S (calls s)) (S (in_flight s)) (fetchlog s) (readlog s))
      | _, _ => None
      end
  | AuthorizeReturns =>
      match pc s with
      | InAuthorize =>
          let k := Nat.pred (calls s) in
          let '(tok, lifespan, e) := authorize s k in
          Some (mk tok e false (readers s) (authorize s)
                   InSelect lifespan
                   (Some (After (now s) (timer_arg lifespan)))
                   (ctx_done s) (now s)
                   (calls s) (Nat.pred (in_flight s))
                   (mkFetch k (now s) tok lifespan e :: fetchlog s)
                   (readlog s))
      | _ => None
      end
  | CaseExpired =>
      match pc s with
      | InSelect =>
          if fired (expired s) (now s) then
            Some (mk (token s) (tokenErr s) (writer s) (readers s)
                     (authorize s) WantLock (expiration s) (expired s)
                     (ctx_done s) (now s)
                     (calls s) (in_flight s) (fetchlog s) (readlog s))
          else None
      | _ => None
      end
  | CaseDone =>
      match pc s with
      | InSelect =>
          if ctx_done s then
            Some (mk (token s) (tokenErr s) (writer s) (readers s)
                     (authorize s) Returned (expiration s) (expired s)
                     (ctx_done s) (now s)
                     (calls s) (in_flight s) (fetchlog s) (readlog s))
          else None
      | _ => None
      end
  end.

Fixpoint run (s : state) (tr : list event) : option state :=
  match tr with
  | [] => Some s
  | e :: tr' =>
      match step s e with
      | Some s' => run s' tr'
      | None => None
      end
  end.

Definition reachable (authFunc : Authorizer) (ctx : bool) (auth : Authorizer)
    (s : state) : Prop :=
  exists tr, run (NewMToken authFunc ctx auth) tr = Some s.

Definition is_return (e : event) : bool :=
  match e with
  | AuthorizeReturns => true
  | _ => false
  end.

(** Schedules during which no Authorizer call returns. *)
Definition no_return (tr : list event) : bool :=
  forallb (fun e => negb (is_return e)) tr.

End MToken.

(** ** Properties of the recorded history, as the specification words them *)

(** A read is fresh when some Authorizer call returned what the read
    returned, not after the read, and with a computed expiry that is not
    before the read. *)
Definition fresh (fetches : list FetchRec) (rd : ReadRec) : Prop :=
  exists f, In f fetches /\ r_resp rd = f_resp f /\
            f_done f <= r_time rd <= computed_expiry f.

(** A read returns a slot that some Authorizer call produced. *)
Definition fetched (fetches : list FetchRec) (rd : ReadRec) : Prop :=
  exists f, In f fetches /\ r_resp rd = f_resp f /\ f_done f <= r_time rd.

(** The read was served before its timer deadline. *)
Definition before_deadline (rd : ReadRec) : Prop :=
  exists deadline, r_timer rd = Some deadline /\ r_time rd < deadline.

(** The timer argument as the specification words it: clamped to zero. *)
Definition clamped_arg (validFor : Duration) : Duration :=
  Z.max 0 (validFor - lifeSpanSafetyMargin).

(** Successive fetches complete at least [q] apart (newest first). *)
Fixpoint spaced (q : Z) (l : list FetchRec) : Prop :=
  match l with
  | f2 :: l' =>
      match l' with
      | f1 :: _ => f_done f1 + q <= f_done f2
      | [] => True
      end /\ spaced q l'
  | [] => True
  end.

(** An Authorizer whose durations are [int64] values from which the safety
    margin can be subtracted without wrap-around. *)
Definition margin_safe (auth : Authorizer) : Prop :=
  forall k, min_int64 + lifeSpanSafetyMargin <= snd (fst (auth k)) <= max_int64.

(** The scenario of the specification: "tok-A" for 100ms, then "tok-B". *)
Definition tokAB : Authorizer :=
  fun k => match k with
           | O => ("tok-A"%string, 100 * Millisecond, None)
           | _ => ("tok-B"%string, 100 * Millisecond, None)
           end.

(** An endpoint that is down. *)
Definition tokDown : Authorizer :=
  fun _ => (EmptyString, 100 * Millisecond, Some "temporary API error"%string).

(** An endpoint whose tokens live shorter than the safety margin. *)
Definition tokShort : Authorizer :=
  fun k => match k with
           | O => ("tok-A"%string, 5 * Millisecond, None)
           | _ => ("tok-B"%string, 5 * Millisecond, None)
           end.

(** ** Invariants of the two transition systems *)

(** The deadline of the timer that is armed when fetch [f] completes. *)
Definition armed (f : FetchRec) : Z :=
  After (f_done f) (timer_arg (f_validFor f)).

(** The fetch log lists the calls of [auth] in order, newest first. *)
Fixpoint log_ok (auth : Authorizer) (l : list FetchRec) : Prop :=
  match l with
  | [] => True
  | f :: l' =>
      f_index f = length l' /\
      auth (f_index f) = (f_token f, f_validFor f, f_err f) /\
      log_ok auth l'
  end.

(** A recorded read returned the slot of a completed fetch while the timer
    of that fetch was the loop's timer. *)
Definition read_ok (fetches : list FetchRec) (now : Z) (rd : ReadRec) : Prop :=
  r_time rd <= now /\
  exists f, In f fetches /\ r_resp rd = f_resp f /\
            f_done f <= r_time rd /\ r_timer rd = Some (armed f).

(** A recorded read of [MToken] may also have seen the fields as
    [NewMToken] left them. *)
Definition mread_ok (fetches : list FetchRec) (now : Z) (rd : ReadRec) : Prop :=
  (r_timer rd = None /\ r_resp rd = mkResp EmptyString None) \/
  read_ok fetches now rd.

Definition flight_of (p : pcT) : nat :=
  if pc_eqb p InAuthorize then 1%nat else 0%nat.

Record TInv (auth : Authorizer) (s : Token.state) : Prop := {
  ti_auth : Token.authorize s = auth;
  ti_flight : Token.in_flight s = flight_of (Token.pc s);
  ti_calls : Token.calls s = (length (Token.fetchlog s) + Token.in_flight s)%nat;
  ti_pc : match Token.pc s with
          | AtStart => Token.calls s = 0%nat
          | WantLock => False
          | InAuthorize => True
          | InSelect | Returned => Token.fetchlog s <> []
          end;
  ti_slot : match Token.fetchlog s with
            | [] => Token.expired s = None /\ Token.readlog s = []
            | f :: _ =>
                Token.token s = f_token f /\ Token.err s = f_err f /\
                Token.expiration s = f_validFor f /\
                Token.expired s = Some (armed f) /\
                f_done f <= Token.now s
            end;
  ti_fetch : log_ok auth (Token.fetchlog s);
  ti_reads : Forall (read_ok (Token.fetchlog s) (Token.now s)) (Token.readlog s)
}.

Record MInv (authFunc : Authorizer) (s : MToken.state) : Prop := {
  mi_auth : MToken.authorize s = authFunc;
  mi_flight : MToken.in_flight s = flight_of (MToken.pc s);
  mi_calls : MToken.calls s
             = (length (MToken.fetchlog s) + MToken.in_flight s)%nat;
  mi_writer : MToken.writer s = pc_eqb (MToken.pc s) InAuthorize;
  mi_readers : MToken.writer s = true -> MToken.readers s = [];
  mi_pc : match MToken.pc s with
          | AtStart => MToken.calls s = 0%nat
          | InSelect | Returned => MToken.fetchlog s <> []
          | _ => True
          end;
  mi_slot : match MToken.fetchlog s with
            | [] => MToken.expired s = None /\
                    MToken.token s = EmptyString /\ MToken.tokenErr s = None
            | f :: _ =>
                MToken.token s = f_token f /\ MToken.tokenErr s = f_err f /\
                MToken.expiration s = f_validFor f /\
                MToken.expired s = Some (armed f) /\
                f_done f <= MToken.now s
            end;
  mi_fetch : log_ok authFunc (MToken.fetchlog s);
  mi_reads : Forall (mread_ok (MToken.fetchlog s) (MToken.now s))
               (MToken.readlog s)
}.

(** ** The simulated endpoint, [authFunc] *)

Module AuthFunc.

(** The constants of l.278-283. *)
Definition tokenLifeSpan : Duration := 100 * Millisecond.
Definition averageCallDuration : Duration := 8 * Millisecond.
Definition apiErrorDuration : Duration := Z.quot (tokenLifeSpan * 150) 100.

(** What one call of [authFunc] meets: the outcome of [rand.Read], of the
    two loads of the package-level flag [tempError], which other goroutines
    write, and of the two comparisons of a random draw. *)
Record Env := mkEnv {
  rand_err : error;             (* l.292: the error of [rand.Read(b)] *)
  rand_buf : list Byte.byte;    (* l.292: the buffer [b] after the read *)
  load1 : bool;                 (* l.303: [tempError.Load()] *)
  draw_fail : bool;             (* l.303: [rnd.Float64() < apiFailureRate] *)
  draw_giveup : bool;           (* l.308: [rnd.Float64() < 0.5] *)
  load2 : bool                  (* l.324: [tempError.Load()] *)
}.

(** What the call returns and what it does besides. *)
Record Outcome := mkOutcome {
  o_token : string;
  o_lifespan : Duration;
  o_err : error;
  o_slept : Duration;              (* the time spent in [time.Sleep] *)
  o_stored : bool;                 (* l.311: [tempError.Store(true)] was run *)
  o_reset_after : option Duration  (* l.314-318: a goroutine was spawned that
                                      clears [tempError] after this delay *)
}.

(** One digit of [%x]: lower case. *)
Definition hex_digit (n : N) : Ascii.ascii :=
  if (n <? 10)%N then Ascii.ascii_of_N (48 + n) else Ascii.ascii_of_N (87 + n).

(** [fmt.Sprintf("%x", b)] for a byte slice: two digits per byte, the high
    one first, nothing in between. *)
Fixpoint hex (b : list Byte.byte) : string :=
  match b with
  | [] => EmptyString
  | x :: b' =>
      String (hex_digit (Byte.to_N x / 16))
        (String (hex_digit (Byte.to_N x mod 16)) (hex b'))
  end.

(** [authFunc()], l.289-330. *)
Definition authFunc (env : Env) : Outcome :=
  match rand_err env with
  | Some e => mkOutcome EmptyString tokenLifeSpan (Some e) 0 false None
  | None =>
      (* l.303: the draw is compared only when the flag is not set *)
      let failing := negb (load1 env) && draw_fail env in
      let gaveup := failing && draw_giveup env in
      (* l.298 and, on failure, l.306 *)
      let slept :=
        if failing then averageCallDuration + tokenLifeSpan
        else averageCallDuration in
      let reset := if gaveup then Some apiErrorDuration else None in
      if load2 env then
        mkOutcome EmptyString tokenLifeSpan (Some "temporary API error"%string)
          slept gaveup reset
      else
        mkOutcome (hex (rand_buf env)) tokenLifeSpan None slept gaveup reset
  end.

(** [authFunc] as the Authorizer of a cell: its [k]-th call meets [envs k]. *)
Definition as_authorizer (envs : nat -> Env) : Authorizer :=
  fun k => let o := authFunc (envs k) in (o_token o, o_lifespan o, o_err o).

Definition is_hex_digit (a : Ascii.ascii) : bool :=
  let n := Ascii.N_of_ascii a in
  ((48 <=? n) && (n <=? 57) || (97 <=? n) && (n <=? 102))%N.

Fixpoint all_hex (t : string) : bool :=
  match t with
  | EmptyString => true
  | String a t' => is_hex_digit a && all_hex t'
  end.

End AuthFunc.

(** A run of the endpoint: the first call succeeds with the buffer
    [de ad be ef 00 00 00 01], every later call finds the flag set. *)
Definition outage_after_first : nat -> AuthFunc.Env :=
  fun k =>
    match k with
    | O => AuthFunc.mkEnv None
             [Byte.xde; Byte.xad; Byte.xbe; Byte.xef;
              Byte.x00; Byte.x00; Byte.x00; Byte.x01]
             false false false false
    | S _ => AuthFunc.mkEnv None
               [Byte.x00; Byte.x00; Byte.x00; Byte.x00;
                Byte.x00; Byte.x00; Byte.x00; Byte.x00]
               true false false true
    end.

(** ** Schedules used to state further properties *)

(** How often client [c] begins a [Get] in a schedule of a [Token]. *)
Definition gets_begun (c : nat) (tr : list Token.event) : nat :=
  length (filter (fun e => match e with
                           | Token.GetBegin c' => Nat.eqb c c'
                           | _ => false
                           end) tr).

(** How many recorded reads are client [c]'s. *)
Definition reads_of (c : nat) (l : list ReadRec) : nat :=
  length (filter (fun rd => Nat.eqb c (r_client rd)) l).

(** One when client [c] is parked in [l], zero otherwise. *)
Definition parked_count (c : nat) (l : list nat) : nat :=
  if parked c l then 1%nat else 0%nat.

(** A schedule that serves client [c] of a [Token] from program point [p]. *)
Definition serve_schedule (p : pcT) (c : nat) : list Token.event :=
  match p with
  | AtStart => [Token.CallInitial; Token.AuthorizeReturns; Token.CaseSend c]
  | InAuthorize => [Token.AuthorizeReturns; Token.CaseSend c]
  | InSelect => [Token.CaseSend c]
  | _ => []
  end.

(** A schedule that lets client [c] complete [Get] on an [MToken]: when the
    goroutine waits for the write lock, the clients holding the read lock
    return first. *)
Definition get_schedule (s : MToken.state) (c : nat) : list MToken.event :=
  match MToken.pc s with
  | InAuthorize =>
      [MToken.AuthorizeReturns; MToken.RLock c; MToken.GetReturns c]
  | WantLock =>
      map MToken.GetReturns (MToken.readers s) ++
      [MToken.LockAcquired; MToken.AuthorizeReturns;
       MToken.RLock c; MToken.GetReturns c]
  | _ => [MToken.RLock c; MToken.GetReturns c]
  end.

(** Is [e] the return of client [c] from [MToken.Get]? *)
Definition returns_of (c : nat) (e : MToken.event) : bool :=
  match e with
  | MToken.GetReturns c' => Nat.eqb c c'
  | _ => false
  end.

(** The clients hold the read lock at most once each. *)
Definition readers_ok (s : MToken.state) : Prop := NoDup (MToken.readers s).

(** Is [e] the send case of a [Token] handing its slot to client [c]? *)
Definition serves (c : nat) (e : Token.event) : bool :=
  match e with
  | Token.CaseSend c' => Nat.eqb c c'
  | _ => false
  end.

(** Schedules of a [Token] during which the goroutine stays where it is and
    client [c] is not served: the clock and the context move, clients
    arrive, other clients are served. *)
Definition unserved (c : nat) (tr : list Token.event) : bool :=
  Token.waiting tr && forallb (fun e => negb (serves c e)) tr.

(** Does [e] leave the lock of an [MToken] as free for client [c] as it
    was?  Everything does but the expiry case, after which the goroutine
    wants the write lock, and [c] taking the read lock itself. *)
Definition leaves_free (c : nat) (e : MToken.event) : bool :=
  match e with
  | MToken.CaseExpired => false
  | MToken.RLock c' => negb (Nat.eqb c c')
  | _ => true
  end.

(** Schedules of an [MToken] without the expiry case and without a
    [RLock] of client [c]. *)
Definition lock_free (c : nat) (tr : list MToken.event) : bool :=
  forallb (leaves_free c) tr.

(** * Proofs *)

(** ** Arithmetic of the timer argument *)

Lemma wrap64_id z : is_int64 z -> wrap64 z = z.
Proof.
  unfold is_int64, wrap64, min_int64, max_int64. intros H.
  rewrite Z.mod_small by lia. lia.
Qed.

Lemma sub64_margin_safe d :
  min_int64 + lifeSpanSafetyMargin <= d <= max_int64 ->
  sub64 d lifeSpanSafetyMargin = d - lifeSpanSafetyMargin.
Proof.
  intros H. unfold sub64. apply wrap64_id.
  unfold is_int64, lifeSpanSafetyMargin, Millisecond, min_int64, max_int64 in *.
  lia.
Qed.

Lemma After_pos now d : 0 < d -> After now d = now + d.
Proof. unfold After. lia. Qed.

Lemma After_nonpos now d : d <= 0 -> After now d = now.
Proof. unfold After. lia. Qed.

(** Before its deadline, a timer armed from [validFor - margin] at the
    completion of a fetch has not passed the computed expiry. *)
Lemma deadline_expiry f t :
  min_int64 + lifeSpanSafetyMargin <= f_validFor f <= max_int64 ->
  f_done f <= t ->
  t < armed f ->
  t <= computed_expiry f.
Proof.
  intros Hs Hd Ht. unfold armed, timer_arg in Ht.
  rewrite sub64_margin_safe in Ht by exact Hs.
  unfold computed_expiry, After in *. lia.
Qed.

Lemma parked_In c l : parked c l = true <-> In c l.
Proof.
  unfold parked. rewrite existsb_exists. split.
  - intros [x [Hx He]]. apply Nat.eqb_eq in He. now subst.
  - intros H. exists c. split; [exact H | apply Nat.eqb_refl].
Qed.

Lemma log_ok_In auth l f :
  log_ok auth l -> In f l ->
  (f_index f < length l)%nat /\ auth (f_index f) = (f_token f, f_validFor f, f_err f).
Proof.
  induction l as [|g l IH]; simpl; [tauto|].
  intros [Hi [Ha Hl]] [->|Hin].
  - split; [lia | exact Ha].
  - destruct (IH Hl Hin). split; [lia | assumption].
Qed.

Lemma read_ok_mono fetches fetches' now now' rd :
  incl fetches fetches' -> now <= now' ->
  read_ok fetches now rd -> read_ok fetches' now' rd.
Proof.
  intros Hi Hn [Ht [f [Hf H]]]. split; [lia|].
  exists f. split; [apply Hi, Hf | exact H].
Qed.

Lemma mread_ok_mono fetches fetches' now now' rd :
  incl fetches fetches' -> now <= now' ->
  mread_ok fetches now rd -> mread_ok fetches' now' rd.
Proof.
  intros Hi Hn [H|H]; [left; exact H | right; eauto using read_ok_mono].
Qed.

Lemma Forall_read_ok_mono fetches fetches' now now' l :
  incl fetches fetches' -> now <= now' ->
  Forall (read_ok fetches now) l -> Forall (read_ok fetches' now') l.
Proof.
  intros Hi Hn. apply Forall_impl. intros rd. now apply read_ok_mono.
Qed.

Lemma Forall_mread_ok_mono fetches fetches' now now' l :
  incl fetches fetches' -> now <= now' ->
  Forall (mread_ok fetches now) l -> Forall (mread_ok fetches' now') l.
Proof.
  intros Hi Hn. apply Forall_impl. intros rd. now apply mread_ok_mono.
Qed.

(** A read that satisfies [read_ok] and was served before its deadline is
    fresh, when the Authorizer's durations do not wrap. *)
Lemma read_ok_fresh auth fetches now rd :
  margin_safe auth -> log_ok auth fetches ->
  read_ok fetches now rd -> before_deadline rd -> fresh fetches rd.
Proof.
  intros Hs Hl [_ [f [Hf [Hr [Hd Ht]]]]] [dl [Hdl Hlt]].
  rewrite Ht in Hdl. injection Hdl as <-.
  exists f. repeat split; try assumption.
  apply deadline_expiry; try assumption.
  destruct (log_ok_In _ _ _ Hl Hf) as [_ Ha].
  specialize (Hs (f_index f)). rewrite Ha in Hs. exact Hs.
Qed.

(** ** The channel-based cell *)

(** Case analysis of one enabled step. *)
Ltac token_step H :=
  match type of H with
  | Token.step ?s ?e = Some _ =>
      unfold Token.step in H; destruct e;
      repeat match type of H with
        | context [match Token.pc s with _ => _ end] =>
            destruct (Token.pc s) eqn:?
        | context [Token.authorize s ?k] =>
            destruct (Token.authorize s k) as [[? ?] ?] eqn:?
        | context [if ?b then _ else _] => destruct b eqn:?
        end;
      try discriminate; injection H as <-
  end.

Section TokenFacts.

Variable auth : Authorizer.

Lemma TInv_init ctx : TInv auth (Token.NewToken ctx auth).
Proof. constructor; simpl; auto. Qed.

Lemma TInv_step s e s' :
  TInv auth s -> Token.step s e = Some s' -> TInv auth s'.
Proof.
  intros [Ha Hf Hc Hp Hs Hl Hr] H.
  token_step H;
    repeat match goal with
      | Hpc : Token.pc s = _ |- _ => rewrite Hpc in *; clear Hpc
      end;
    constructor; unfold flight_of in *; simpl in *;
    auto; try lia; try discriminate.
  - (* Tick: the clock only moves forward *)
    destruct (Token.fetchlog s); [auto|]. intuition lia.
  - eapply Forall_read_ok_mono; [apply incl_refl | | exact Hr]. lia.
  - (* AuthorizeReturns: the new slot, its timer and its log entry *)
    unfold armed; simpl. repeat split; auto. lia.
  - repeat split; auto; [lia|]. rewrite <- Ha. assumption.
  - eapply Forall_read_ok_mono; [apply incl_tl, incl_refl | | exact Hr]. lia.
  - (* CaseSend: the slot handed over is that of the newest fetch *)
    destruct (Token.fetchlog s); [congruence | exact Hs].
  - constructor; [|exact Hr].
    destruct (Token.fetchlog s) as [|f l]; [congruence|].
    destruct Hs as [Ht [He [_ [Hx Hd]]]].
    split; simpl; [lia|]. exists f. simpl. repeat split; auto.
    unfold f_resp. now rewrite Ht, He.
Qed.

Lemma TInv_run tr : forall s s',
  TInv auth s -> Token.run s tr = Some s' -> TInv auth s'.
Proof.
  induction tr as [|e tr IH]; simpl; intros s s' Hi H.
  - now injection H as <-.
  - destruct (Token.step s e) eqn:He; [|discriminate].
    eapply IH; [|exact H]. eapply TInv_step; eauto.
Qed.

Lemma TInv_reachable ctx s : Token.reachable ctx auth s -> TInv auth s.
Proof. intros [tr H]. eapply TInv_run; [apply TInv_init | exact H]. Qed.

End TokenFacts.

(** ** The mutex-based cell *)

Ltac mtoken_step H :=
  match type of H with
  | MToken.step ?s ?e = Some _ =>
      unfold MToken.step in H; destruct e;
      repeat match type of H with
        | context [match MToken.pc s with _ => _ end] =>
            destruct (MToken.pc s) eqn:?
        | context [match MToken.readers s with _ => _ end] =>
            destruct (MToken.readers s) eqn:?
        | context [MToken.authorize s ?k] =>
            destruct (MToken.authorize s k) as [[? ?] ?] eqn:?
        | context [if ?b then _ else _] => destruct b eqn:?
        end;
      try discriminate; injection H as <-
  end.

Section MTokenFacts.

Variable authFunc : Authorizer.

Lemma MInv_init ctx auth : MInv authFunc (MToken.NewMToken authFunc ctx auth).
Proof. constructor; simpl; auto. Qed.

Lemma MInv_step s e s' :
  MInv authFunc s -> MToken.step s e = Some s' -> MInv authFunc s'.
Proof.
  intros [Ha Hf Hc Hw Hrd Hp Hs Hl Hr] H.
  mtoken_step H;
    repeat match goal with
      | Hpc : MToken.pc s = _ |- _ => rewrite Hpc in *; clear Hpc
      end;
    constructor; unfold flight_of in *; simpl in *;
    auto; try lia; try discriminate.
  - (* Tick *)
    destruct (MToken.fetchlog s); [auto|]. intuition lia.
  - eapply Forall_mread_ok_mono; [apply incl_refl | | exact Hr]. lia.
  - (* RLock: only granted while the lock is not held for writing *)
    intros Hw'. rewrite Hw' in *. discriminate.
  - (* GetReturns *)
    intros Hw'. rewrite (Hrd Hw'). reflexivity.
  - constructor; [|exact Hr].
    destruct (MToken.fetchlog s) as [|f l].
    + left. simpl. destruct Hs as [-> [-> ->]]. auto.
    + right. destruct Hs as [Ht [He [_ [Hx Hd]]]].
      split; simpl; [lia|]. exists f. simpl. repeat split; auto.
      unfold f_resp. now rewrite Ht, He.
  - (* AuthorizeReturns *)
    unfold armed; simpl. repeat split; auto. lia.
  - repeat split; auto; [lia|]. rewrite <- Ha. assumption.
  - eapply Forall_mread_ok_mono; [apply incl_tl, incl_refl | | exact Hr]. lia.
Qed.

Lemma MInv_run tr : forall s s',
  MInv authFunc s -> MToken.run s tr = Some s' -> MInv authFunc s'.
Proof.
  induction tr as [|e tr IH]; simpl; intros s s' Hi H.
  - now injection H as <-.
  - destruct (MToken.step s e) eqn:He; [|discriminate].
    eapply IH; [|exact H]. eapply MInv_step; eauto.
Qed.

Lemma MInv_reachable ctx auth s :
  MToken.reachable authFunc ctx auth s -> MInv authFunc s.
Proof. intros [tr H]. eapply MInv_run; [apply MInv_init | exact H]. Qed.

End MTokenFacts.
(** ** Executions of the channel-based cell *)

Lemma Token_run_app s tr1 tr2 :
  Token.run s (tr1 ++ tr2) =
  match Token.run s tr1 with
  | Some s1 => Token.run s1 tr2
  | None => None
  end.
Proof.
  revert s. induction tr1 as [|e tr1 IH]; simpl; intros s; [reflexivity|].
  destruct (Token.step s e); [apply IH | reflexivity].
Qed.

Lemma Token_reachable_run ctx auth s tr s' :
  Token.reachable ctx auth s -> Token.run s tr = Some s' ->
  Token.reachable ctx auth s'.
Proof.
  intros [tr0 H0] H. exists (tr0 ++ tr). now rewrite Token_run_app, H0.
Qed.

Lemma Token_reachable_step ctx auth s e s' :
  Token.reachable ctx auth s -> Token.step s e = Some s' ->
  Token.reachable ctx auth s'.
Proof.
  intros Hr H. apply (Token_reachable_run ctx auth s [e] s' Hr).
  simpl. now rewrite H.
Qed.

(** What no step undoes: the clock, the call counter, the cancellation
    and the fetch log. *)
Lemma Token_step_mono s e s' :
  Token.step s e = Some s' ->
  Token.now s <= Token.now s' /\
  (Token.calls s <= Token.calls s')%nat /\
  (exists l, Token.fetchlog s' = l ++ Token.fetchlog s) /\
  (exists l, Token.readlog s' = l ++ Token.readlog s) /\
  (Token.ctx_done s = true -> Token.ctx_done s' = true).
Proof.
  intros H. token_step H; simpl; repeat split; auto; try lia;
    try (now exists []); try (eexists [_]; reflexivity).
Qed.

Lemma Token_run_mono tr : forall s s',
  Token.run s tr = Some s' ->
  Token.now s <= Token.now s' /\
  (Token.calls s <= Token.calls s')%nat /\
  (exists l, Token.fetchlog s' = l ++ Token.fetchlog s) /\
  (exists l, Token.readlog s' = l ++ Token.readlog s) /\
  (Token.ctx_done s = true -> Token.ctx_done s' = true).
Proof.
  induction tr as [|e tr IH]; simpl; intros s s' H.
  - injection H as <-. repeat split; auto; try lia; now exists [].
  - destruct (Token.step s e) as [s1|] eqn:He; [|discriminate].
    destruct (Token_step_mono _ _ _ He) as [Hn [Hc [[l1 Hf] [[r1 Hr] Hd]]]].
    destruct (IH _ _ H) as [Hn' [Hc' [[l2 Hf'] [[r2 Hr'] Hd']]]].
    repeat split; auto; try lia.
    + exists (l2 ++ l1). now rewrite Hf', Hf, app_assoc.
    + exists (r2 ++ r1). now rewrite Hr', Hr, app_assoc.
Qed.

(** The only way into [Returned] is the [ctx.Done()] case of [select]. *)
Lemma Token_exit_step s e s' :
  Token.step s e = Some s' -> Token.pc s <> Returned -> Token.pc s' = Returned ->
  e = Token.CaseDone /\ Token.pc s = InSelect /\ Token.ctx_done s = true.
Proof.
  intros H Hn Hp. token_step H; simpl in *; try congruence; auto.
Qed.

(** Once the goroutine has returned, nothing but the clock, the context
    and the queue of blocked clients changes. *)
Lemma Token_returned_step s e s' :
  Token.pc s = Returned -> Token.step s e = Some s' ->
  Token.pc s' = Returned /\ Token.calls s' = Token.calls s /\
  Token.in_flight s' = Token.in_flight s /\
  Token.fetchlog s' = Token.fetchlog s /\ Token.readlog s' = Token.readlog s /\
  (forall c, In c (Token.receivers s) -> In c (Token.receivers s')) /\
  (forall c, e = Token.GetBegin c -> In c (Token.receivers s')).
Proof.
  intros Hp H. token_step H; simpl; repeat split; auto; try congruence;
    try (intros; discriminate); try (intros; simpl; auto).
  injection H as <-. now left.
Qed.

Lemma Token_returned_run tr : forall s s',
  Token.pc s = Returned -> Token.run s tr = Some s' ->
  Token.pc s' = Returned /\ Token.calls s' = Token.calls s /\
  Token.in_flight s' = Token.in_flight s /\
  Token.fetchlog s' = Token.fetchlog s /\ Token.readlog s' = Token.readlog s /\
  (forall c, In c (Token.receivers s) -> In c (Token.receivers s')).
Proof.
  induction tr as [|e tr IH]; simpl; intros s s' Hp H.
  - injection H as <-. repeat split; auto.
  - destruct (Token.step s e) as [s1|] eqn:He; [|discriminate].
    destruct (Token_returned_step _ _ _ Hp He) as [Hp1 [Hc [Hi [Hf [Hr [Hq _]]]]]].
    destruct (IH _ _ Hp1 H) as [Hp2 [Hc' [Hi' [Hf' [Hr' Hq']]]]].
    repeat split; auto; congruence.
Qed.

(** A run that ends in [Returned] started there or took the
    [ctx.Done()] case, with the context cancelled. *)
Lemma Token_exit_run tr : forall s s',
  Token.run s tr = Some s' -> Token.pc s' = Returned ->
  Token.pc s = Returned \/ (In Token.CaseDone tr /\ Token.ctx_done s' = true).
Proof.
  induction tr as [|e tr IH]; simpl; intros s s' H Hp.
  - injection H as <-. now left.
  - destruct (Token.step s e) as [s1|] eqn:He; [|discriminate].
    destruct (IH _ _ H Hp) as [Hp1|[Hin Hd]].
    + destruct (pc_eqb (Token.pc s) Returned) eqn:Hb.
      * left. destruct (Token.pc s); simpl in Hb; congruence.
      * right. destruct (Token_exit_step _ _ _ He) as [-> [_ Hd]]; auto.
        { intros E. rewrite E in Hb. discriminate. }
        split; [now left|].
        destruct (Token_step_mono _ _ _ He) as [_ [_ [_ [_ Hd1]]]].
        destruct (Token_run_mono _ _ _ H) as [_ [_ [_ [_ Hd2]]]]. auto.
    + right. split; [now right | exact Hd].
Qed.

(** ** Executions of the mutex-based cell *)

Lemma MToken_step_mono s e s' :
  MToken.step s e = Some s' ->
  MToken.now s <= MToken.now s' /\
  (MToken.calls s <= MToken.calls s')%nat /\
  (exists l, MToken.fetchlog s' = l ++ MToken.fetchlog s) /\
  (exists l, MToken.readlog s' = l ++ MToken.readlog s) /\
  (MToken.ctx_done s = true -> MToken.ctx_done s' = true).
Proof.
  intros H. mtoken_step H; simpl; repeat split; auto; try lia;
    try (now exists []); try (eexists [_]; reflexivity).
Qed.

Lemma MToken_exit_step s e s' :
  MToken.step s e = Some s' ->
  MToken.pc s <> Returned -> MToken.pc s' = Returned ->
  e = MToken.CaseDone /\ MToken.pc s = InSelect /\ MToken.ctx_done s = true.
Proof.
  intros H Hn Hp. mtoken_step H; simpl in *; try congruence; auto.
Qed.

Lemma MToken_run_mono tr : forall s s',
  MToken.run s tr = Some s' ->
  MToken.now s <= MToken.now s' /\
  (MToken.calls s <= MToken.calls s')%nat /\
  (exists l, MToken.fetchlog s' = l ++ MToken.fetchlog s) /\
  (exists l, MToken.readlog s' = l ++ MToken.readlog s) /\
  (MToken.ctx_done s = true -> MToken.ctx_done s' = true).
Proof.
  induction tr as [|e tr IH]; simpl; intros s s' H.
  - injection H as <-. repeat split; auto; try lia; now exists [].
  - destruct (MToken.step s e) as [s1|] eqn:He; [|discriminate].
    destruct (MToken_step_mono _ _ _ He) as [Hn [Hc [[l1 Hf] [[r1 Hr] Hd]]]].
    destruct (IH _ _ H) as [Hn' [Hc' [[l2 Hf'] [[r2 Hr'] Hd']]]].
    repeat split; auto; try lia.
    + exists (l2 ++ l1). now rewrite Hf', Hf, app_assoc.
    + exists (r2 ++ r1). now rewrite Hr', Hr, app_assoc.
Qed.

Lemma MToken_exit_run tr : forall s s',
  MToken.run s tr = Some s' -> MToken.pc s' = Returned ->
  MToken.pc s = Returned \/
  (In MToken.CaseDone tr /\ MToken.ctx_done s' = true).
Proof.
  induction tr as [|e tr IH]; simpl; intros s s' H Hp.
  - injection H as <-. now left.
  - destruct (MToken.step s e) as [s1|] eqn:He; [|discriminate].
    destruct (IH _ _ H Hp) as [Hp1|[Hin Hd]].
    + destruct (pc_eqb (MToken.pc s) Returned) eqn:Hb.
      * left. destruct (MToken.pc s); simpl in Hb; congruence.
      * right. destruct (MToken_exit_step _ _ _ He) as [-> [_ Hd]]; auto.
        { intros E. rewrite E in Hb. discriminate. }
        split; [now left|].
        destruct (MToken_step_mono _ _ _ He) as [_ [_ [_ [_ Hd1]]]].
        destruct (MToken_run_mono _ _ _ H) as [_ [_ [_ [_ Hd2]]]]. auto.
    + right. split; [now right | exact Hd].
Qed.

(** Once the goroutine has returned, clients still read the fields, but
    no call is made and the fields keep their values. *)
Lemma MToken_returned_step s e s' :
  MToken.pc s = Returned -> MToken.step s e = Some s' ->
  MToken.pc s' = Returned /\ MToken.calls s' = MToken.calls s /\
  MToken.in_flight s' = MToken.in_flight s /\
  MToken.fetchlog s' = MToken.fetchlog s /\
  MToken.token s' = MToken.token s /\ MToken.tokenErr s' = MToken.tokenErr s.
Proof.
  intros Hp H. mtoken_step H; simpl; repeat split; auto; congruence.
Qed.

Lemma MToken_returned_run tr : forall s s',
  MToken.pc s = Returned -> MToken.run s tr = Some s' ->
  MToken.pc s' = Returned /\ MToken.calls s' = MToken.calls s /\
  MToken.in_flight s' = MToken.in_flight s /\
  MToken.fetchlog s' = MToken.fetchlog s /\
  MToken.token s' = MToken.token s /\ MToken.tokenErr s' = MToken.tokenErr s.
Proof.
  induction tr as [|e tr IH]; simpl; intros s s' Hp H.
  - injection H as <-. repeat split; auto.
  - destruct (MToken.step s e) as [s1|] eqn:He; [|discriminate].
    destruct (MToken_returned_step _ _ _ Hp He) as [Hp1 [Hc [Hi [Hf [Ht Hx]]]]].
    destruct (IH _ _ Hp1 H) as [Hp2 [Hc' [Hi' [Hf' [Ht' Hx']]]]].
    repeat split; auto; congruence.
Qed.

(** ** Further facts about executions *)

(** What the send case hands over: the slot of the newest completed fetch. *)
Lemma Token_send_newest auth s c s' :
  TInv auth s -> Token.step s (Token.CaseSend c) = Some s' ->
  exists g rest,
    Token.fetchlog s = g :: rest /\ Token.pc s = InSelect /\
    In c (Token.receivers s) /\
    Token.readlog s' =
      mkRead c (Token.now s) (f_resp g) (Token.expired s) :: Token.readlog s.
Proof.
  intros [_ _ _ Hp Hs _ _] H. unfold Token.step in H.
  destruct (Token.pc s) eqn:Hpc; try discriminate.
  destruct (parked c (Token.receivers s)) eqn:Hc; [|discriminate].
  injection H as <-. simpl.
  destruct (Token.fetchlog s) as [|g rest]; [congruence|].
  destruct Hs as [Ht [He _]]. exists g, rest.
  repeat split; auto; [now apply parked_In|].
  unfold f_resp. now rewrite Ht, He.
Qed.



(** While the goroutine stays in [select], its timer stays as armed. *)
Lemma Token_waiting_run tr : forall s s',
  Token.waiting tr = true -> Token.run s tr = Some s' ->
  Token.pc s' = Token.pc s /\ Token.expired s' = Token.expired s /\
  Token.calls s' = Token.calls s.
Proof.
  induction tr as [|e tr IH]; simpl; intros s s' Hq H.
  - injection H as <-. auto.
  - destruct (Token.step s e) as [s1|] eqn:He; [|discriminate].
    apply andb_prop in Hq. destruct Hq as [Hq1 Hq2].
    apply negb_true_iff in Hq1.
    destruct (IH _ _ Hq2 H) as [Hp [Hx Hc]].
    rewrite Hp, Hx, Hc. clear - Hq1 He.
    token_step He; simpl in *; try discriminate; auto.
Qed.

(** While a call of the Authorizer is in flight the [Token] goroutine is
    not in [select]: no read completes until the call returns. *)
Lemma Token_in_call_run tr : forall s s',
  Token.pc s = InAuthorize -> Token.no_return tr = true ->
  Token.run s tr = Some s' ->
  Token.pc s' = InAuthorize /\ Token.readlog s' = Token.readlog s.
Proof.
  induction tr as [|e tr IH]; simpl; intros s s' Hp Hq H.
  - injection H as <-. auto.
  - destruct (Token.step s e) as [s1|] eqn:He; [|discriminate].
    apply andb_prop in Hq. destruct Hq as [Hq1 Hq2].
    apply negb_true_iff in Hq1.
    assert (Hs : Token.pc s1 = InAuthorize /\ Token.readlog s1 = Token.readlog s).
    { clear - Hp Hq1 He. unfold Token.step in He. rewrite Hp in He.
      destruct e; simpl in *; try discriminate.
      - destruct (0 <? d); [|discriminate]. injection He as <-. simpl. auto.
      - injection He as <-. simpl. auto.
      - destruct (parked c (Token.receivers s)); [discriminate|].
        injection He as <-. simpl. auto. }
    destruct Hs as [Hp1 Hr1]. destruct (IH _ _ Hp1 Hq2 H) as [Hp2 Hr2].
    split; congruence.
Qed.

(** While a call is in flight the [MToken] goroutine holds the write
    lock: no client obtains the read lock, and no read completes. *)
Lemma MToken_in_call_run tr : forall s s',
  MToken.pc s = InAuthorize -> MToken.writer s = true -> MToken.readers s = [] ->
  MToken.no_return tr = true -> MToken.run s tr = Some s' ->
  MToken.pc s' = InAuthorize /\ MToken.writer s' = true /\
  MToken.readers s' = [] /\ MToken.readlog s' = MToken.readlog s.
Proof.
  induction tr as [|e tr IH]; simpl; intros s s' Hp Hw Hrd Hq H.
  - injection H as <-. auto.
  - destruct (MToken.step s e) as [s1|] eqn:He; [|discriminate].
    apply andb_prop in Hq. destruct Hq as [Hq1 Hq2].
    apply negb_true_iff in Hq1.
    assert (Hs : MToken.pc s1 = InAuthorize /\ MToken.writer s1 = true /\
                 MToken.readers s1 = [] /\ MToken.readlog s1 = MToken.readlog s).
    { clear - Hp Hw Hrd Hq1 He.
      unfold MToken.step in He. rewrite Hp, Hw, Hrd in He.
      destruct e; simpl in *; try discriminate.
      - destruct (0 <? d); [|discriminate]. injection He as <-. simpl. auto.
      - injection He as <-. simpl. auto. }
    destruct Hs as [Hp1 [Hw1 [Hrd1 Hr1]]].
    destruct (IH _ _ Hp1 Hw1 Hrd1 Hq2 H) as [Hp2 [Hw2 [Hrd2 Hr2]]].
    repeat split; congruence.
Qed.

Lemma flight_one p : flight_of p = 1%nat -> p = InAuthorize.
Proof. destruct p; cbv; intros H; congruence. Qed.

(** Every read recorded by a [Token] returned what some Authorizer call
    had returned by then. *)
Lemma Token_reads_fetched ctx auth s rd :
  Token.reachable ctx auth s -> In rd (Token.readlog s) ->
  fetched (Token.fetchlog s) rd.
Proof.
  intros Hr Hin. destruct (TInv_reachable _ _ _ Hr) as [_ _ _ _ _ _ Hreads].
  rewrite Forall_forall in Hreads.
  destruct (Hreads rd Hin) as [_ [f [Hf [He [Hd _]]]]]. exists f. auto.
Qed.

Lemma tokAB_margin_safe : margin_safe tokAB.
Proof. intros [|k]; vm_compute; split; discriminate. Qed.

(** On [Token] the first fetch completes before any read does: the send
    case exists only inside the loop, which is entered after the first call
    has returned. *)
Lemma Token_first_fetch_before_reads ctx auth s :
  Token.reachable ctx auth s ->
  (Token.fetchlog s = [] -> Token.readlog s = []) /\
  (forall rd, In rd (Token.readlog s) -> fetched (Token.fetchlog s) rd).
Proof.
  intros Hr. split.
  - intros He. destruct (TInv_reachable _ _ _ Hr) as [_ _ _ _ Hs _ _].
    rewrite He in Hs. tauto.
  - intros rd. now apply (Token_reads_fetched ctx auth).
Qed.

(** [NewToken] makes no call itself, and every call its cell makes is a
    call of the supplied function. *)
Lemma NewToken_uses_auth ctx auth :
  Token.calls (Token.NewToken ctx auth) = 0%nat /\
  Token.pc (Token.NewToken ctx auth) = AtStart /\
  forall s, Token.reachable ctx auth s ->
    Token.authorize s = auth /\ log_ok auth (Token.fetchlog s).
Proof.
  repeat split; destruct (TInv_reachable auth ctx s H); assumption.
Qed.

(** Every call that an [MToken] makes is a call of [authFunc]. *)
Lemma MToken_calls_authFunc authFunc ctx auth s :
  MToken.reachable authFunc ctx auth s ->
  MToken.authorize s = authFunc /\ log_ok authFunc (MToken.fetchlog s).
Proof.
  intros H. destruct (MInv_reachable authFunc ctx auth s H). split; assumption.
Qed.

(** With lifespans below the safety margin the loop spins: from [select]
    with the timer ready, any number of fetches follow one another at one
    and the same instant. *)
Lemma tokShort_spin n : forall s,
  Token.pc s = InSelect -> Token.authorize s = tokShort ->
  Token.expired s = Some (Token.now s) ->
  exists s',
    Token.run s (Token.spin n) = Some s' /\
    Token.now s' = Token.now s /\
    Token.calls s' = (Token.calls s + n)%nat /\
    length (Token.fetchlog s') = (length (Token.fetchlog s) + n)%nat /\
    Token.pc s' = InSelect.
Proof.
  induction n as [|n IH]; intros s Hp Ha Hx.
  - exists s. simpl. repeat split; auto.
  - assert (Hk : exists tok, tokShort (Token.calls s)
                             = (tok, 5 * Millisecond, None)).
    { destruct (Token.calls s); eexists; reflexivity. }
    destruct Hk as [tok Hk].
    assert (E1 : exists s1, Token.step s Token.CaseExpired = Some s1 /\
                   Token.pc s1 = InAuthorize /\ Token.authorize s1 = tokShort /\
                   Token.now s1 = Token.now s /\
                   Token.calls s1 = S (Token.calls s) /\
                   Token.fetchlog s1 = Token.fetchlog s).
    { unfold Token.step. rewrite Hp, Hx. simpl. rewrite Z.leb_refl.
      eexists. repeat split; auto. }
    destruct E1 as [s1 [E1 [Hp1 [Ha1 [Hn1 [Hc1 Hl1]]]]]].
    assert (E2 : exists s2, Token.step s1 Token.AuthorizeReturns = Some s2 /\
                   Token.pc s2 = InSelect /\ Token.authorize s2 = tokShort /\
                   Token.expired s2 = Some (Token.now s2) /\
                   Token.now s2 = Token.now s /\
                   Token.calls s2 = S (Token.calls s) /\
                   length (Token.fetchlog s2) = S (length (Token.fetchlog s))).
    { unfold Token.step. rewrite Hp1, Ha1, Hc1. simpl. rewrite Hk.
      eexists. split; [reflexivity|]. simpl.
      repeat split; auto; try congruence.
      unfold After. f_equal.
      change (timer_arg 5000000) with (- 5000000). lia. }
    destruct E2 as [s2 [E2 [Hp2 [Ha2 [Hx2 [Hn2 [Hc2 Hl2]]]]]]].
    destruct (IH s2 Hp2 Ha2 Hx2) as [s' [Hrun [Hn [Hc [Hl Hp']]]]].
    exists s'. cbn [Token.run Token.spin]. rewrite E1, E2.
    repeat split; auto; lia.
Qed.

(** ** Clients and the goroutine waiting in [select] *)

(** A step that neither moves the [Token] goroutine nor serves client [c]
    leaves [c] parked on the channel and the slot as it is. *)
Lemma Token_unserved_step c s e s1 :
  Token.moves_on e = false -> serves c e = false ->
  In c (Token.receivers s) -> Token.step s e = Some s1 ->
  In c (Token.receivers s1) /\ Token.pc s1 = Token.pc s /\
  Token.fetchlog s1 = Token.fetchlog s /\ Token.token s1 = Token.token s /\
  Token.err s1 = Token.err s /\ Token.expired s1 = Token.expired s.
Proof.
  intros Hm Hs Hc H.
  token_step H; simpl in *; try discriminate; repeat split; auto.
  unfold unpark. apply filter_In. split; [exact Hc|].
  apply negb_true_iff. apply Nat.eqb_neq. apply Nat.eqb_neq in Hs. congruence.
Qed.

Lemma Token_unserved_run c tr : forall s s1,
  unserved c tr = true -> In c (Token.receivers s) ->
  Token.run s tr = Some s1 ->
  In c (Token.receivers s1) /\ Token.pc s1 = Token.pc s /\
  Token.fetchlog s1 = Token.fetchlog s /\ Token.token s1 = Token.token s /\
  Token.err s1 = Token.err s /\ Token.expired s1 = Token.expired s.
Proof.
  unfold unserved, Token.waiting.
  induction tr as [|e tr IH]; cbn [forallb Token.run]; intros s s1 Hq Hc H.
  - injection H as <-. repeat split; auto.
  - destruct (Token.step s e) as [s0|] eqn:He; [|discriminate].
    apply andb_prop in Hq. destruct Hq as [Hq1 Hq2].
    apply andb_prop in Hq1. destruct Hq1 as [Hm Hw].
    apply andb_prop in Hq2. destruct Hq2 as [Hs Hu].
    apply negb_true_iff in Hm. apply negb_true_iff in Hs.
    destruct (Token_unserved_step _ _ _ _ Hm Hs Hc He)
      as [Hc0 [Hp0 [Hl0 [Ht0 [He0 Hx0]]]]].
    assert (Hq : forallb (fun e => negb (Token.moves_on e)) tr
                 && forallb (fun e => negb (serves c e)) tr = true)
      by (now rewrite Hw, Hu).
    destruct (IH _ _ Hq Hc0 H) as [Hc1 [Hp1 [Hl1 [Ht1 [He1 Hx1]]]]].
    repeat split; auto; congruence.
Qed.

(** A step of an [MToken] that leaves the lock free for client [c] keeps
    the goroutine out of [Lock()], the lock unheld by [c], and the fields
    as they are. *)
Lemma MToken_lock_free_step c s e s1 :
  leaves_free c e = true ->
  MToken.pc s = InSelect \/ MToken.pc s = Returned ->
  MToken.writer s = false -> ~ In c (MToken.readers s) ->
  MToken.step s e = Some s1 ->
  (MToken.pc s1 = InSelect \/ MToken.pc s1 = Returned) /\
  MToken.writer s1 = false /\ ~ In c (MToken.readers s1) /\
  MToken.token s1 = MToken.token s /\ MToken.tokenErr s1 = MToken.tokenErr s /\
  MToken.expired s1 = MToken.expired s.
Proof.
  intros Hf Hp Hw Hc H.
  mtoken_step H; simpl in *; try discriminate;
    try (destruct Hp; discriminate); repeat split; auto.
  - intros [E|E]; [|contradiction].
    apply negb_true_iff in Hf. apply Nat.eqb_neq in Hf. congruence.
  - unfold unpark. intros E. apply filter_In in E. tauto.
Qed.

Lemma MToken_lock_free_run c tr : forall s s1,
  lock_free c tr = true ->
  MToken.pc s = InSelect \/ MToken.pc s = Returned ->
  MToken.writer s = false -> ~ In c (MToken.readers s) ->
  MToken.run s tr = Some s1 ->
  (MToken.pc s1 = InSelect \/ MToken.pc s1 = Returned) /\
  MToken.writer s1 = false /\ ~ In c (MToken.readers s1) /\
  MToken.token s1 = MToken.token s /\ MToken.tokenErr s1 = MToken.tokenErr s /\
  MToken.expired s1 = MToken.expired s.
Proof.
  unfold lock_free.
  induction tr as [|e tr IH]; cbn [forallb MToken.run]; intros s s1 Hq Hp Hw Hc H.
  - injection H as <-. repeat split; auto.
  - destruct (MToken.step s e) as [s0|] eqn:He; [|discriminate].
    apply andb_prop in Hq. destruct Hq as [Hf Hq].
    destruct (MToken_lock_free_step _ _ _ _ Hf Hp Hw Hc He)
      as [Hp0 [Hw0 [Hc0 [Ht0 [He0 Hx0]]]]].
    destruct (IH _ _ Hq Hp0 Hw0 Hc0 H) as [Hp1 [Hw1 [Hc1 [Ht1 [He1 Hx1]]]]].
    repeat split; auto; congruence.
Qed.

(** Once the [MToken] goroutine has called [Lock()], it waits for the
    lock or holds it until the Authorizer call has returned: no client
    obtains the read lock in between. *)
Lemma MToken_wants_lock_run tr : forall s s1,
  MToken.pc s = WantLock \/ (MToken.pc s = InAuthorize /\ MToken.writer s = true) ->
  MToken.no_return tr = true -> MToken.run s tr = Some s1 ->
  (MToken.pc s1 = WantLock \/
   (MToken.pc s1 = InAuthorize /\ MToken.writer s1 = true)) /\
  forall c, MToken.step s1 (MToken.RLock c) = None.
Proof.
  unfold MToken.no_return.
  induction tr as [|e tr IH]; cbn [forallb MToken.run]; intros s s1 Hp Hq H.
  - injection H as <-. split; [exact Hp|]. intros c. unfold MToken.step.
    destruct Hp as [Hp|[Hp Hw]].
    + rewrite Hp. cbn [pc_eqb]. now rewrite orb_true_r.
    + now rewrite Hw.
  - destruct (MToken.step s e) as [s0|] eqn:He; [|discriminate].
    apply andb_prop in Hq. destruct Hq as [Hq1 Hq2].
    apply negb_true_iff in Hq1.
    apply (IH s0 s1); [|exact Hq2|exact H].
    clear - Hp Hq1 He.
    mtoken_step He; simpl in *; try discriminate;
      try (destruct Hp as [Hp|[Hp Hw]]; discriminate); auto;
      try (destruct Hp as [Hp|[Hp Hw]]; [now left | right; now split]).
Qed.

(** * The claims *)

(** C1, as the code has it (freshness before the timer deadline).  Let the
    Authorizer return durations from which the margin can be subtracted in
    [int64].  In either cell, a read that completes before the deadline of
    the loop's timer returns what an Authorizer call returned, and the
    computed expiry of that call is not before the read; every read of a
    [Token] returns what an Authorizer call returned. *)
Theorem C1_fresh_before_deadline :
  (forall ctx auth s rd,
     margin_safe auth -> Token.reachable ctx auth s ->
     In rd (Token.readlog s) ->
     fetched (Token.fetchlog s) rd /\
     (before_deadline rd -> fresh (Token.fetchlog s) rd)) /\
  (forall authFunc ctx auth s rd,
     margin_safe authFunc -> MToken.reachable authFunc ctx auth s ->
     In rd (MToken.readlog s) ->
     before_deadline rd -> fresh (MToken.fetchlog s) rd).
Proof.
  split.
  - intros ctx auth s rd Hs Hr Hin.
    split; [eapply Token_reads_fetched; eauto|].
    destruct (TInv_reachable _ _ _ Hr) as [_ _ _ _ _ Hlog Hreads].
    rewrite Forall_forall in Hreads.
    eapply read_ok_fresh; eauto.
  - intros authFunc ctx auth s rd Hs Hr Hin Hb.
    destruct (MInv_reachable _ _ _ _ Hr) as [_ _ _ _ _ _ _ Hlog Hreads].
    rewrite Forall_forall in Hreads.
    destruct (Hreads rd Hin) as [[Hnone _]|Hok].
    + destruct Hb as [dl [Hdl _]]. congruence.
    + eapply read_ok_fresh; eauto.
Qed.

(** A reader at 0ms and a reader at 89ms both get "tok-A", whose computed
    expiry is 90ms. *)
Lemma C1_fresh_before_deadline_witness :
  (exists s,
     Token.run (Token.NewToken false tokAB)
       [Token.CallInitial; Token.AuthorizeReturns; Token.GetBegin 1;
        Token.CaseSend 1; Token.Tick (89 * Millisecond); Token.GetBegin 2;
        Token.CaseSend 2] = Some s /\
     fresh (Token.fetchlog s)
       (mkRead 2 (89 * Millisecond) (mkResp "tok-A"%string None)
          (Some (90 * Millisecond)))) /\
  (exists s,
     MToken.run (MToken.NewMToken tokAB false tokAB)
       [MToken.LockInitial; MToken.LockAcquired; MToken.AuthorizeReturns;
        MToken.Tick (89 * Millisecond); MToken.RLock 2; MToken.GetReturns 2]
     = Some s /\
     fresh (MToken.fetchlog s)
       (mkRead 2 (89 * Millisecond) (mkResp "tok-A"%string None)
          (Some (90 * Millisecond)))).
Proof.
  split.
  - eassert (E : Token.run (Token.NewToken false tokAB)
                   [Token.CallInitial; Token.AuthorizeReturns; Token.GetBegin 1;
                    Token.CaseSend 1; Token.Tick (89 * Millisecond);
                    Token.GetBegin 2; Token.CaseSend 2] = Some _)
      by (vm_compute; reflexivity).
    eexists. split; [exact E|].
    refine (proj2 (proj1 C1_fresh_before_deadline false tokAB _ _
                     tokAB_margin_safe (ex_intro _ _ E) _) _).
    + left. reflexivity.
    + exists (90 * Millisecond). split; reflexivity.
  - eassert (E : MToken.run (MToken.NewMToken tokAB false tokAB)
                   [MToken.LockInitial; MToken.LockAcquired;
                    MToken.AuthorizeReturns; MToken.Tick (89 * Millisecond);
                    MToken.RLock 2; MToken.GetReturns 2] = Some _)
      by (vm_compute; reflexivity).
    eexists. split; [exact E|].
    refine (proj2 C1_fresh_before_deadline tokAB false tokAB _ _
              tokAB_margin_safe (ex_intro _ _ E) _ _).
    + left. reflexivity.
    + exists (90 * Millisecond). split; reflexivity.
Defined.

(** C1, as the specification words it, fails.  "tok-A" is fetched at 0ms
    for 100ms, so its computed expiry is 90ms.  Clients 1 and 2 enter [Get]
    one nanosecond before that instant and client 1 is served.  When the
    loop is back in [select], one nanosecond after that instant, the timer
    has fired and client 2 is waiting: both cases are ready and the send
    case is taken.  Client 2 receives "tok-A" after its computed expiry.  On
    [MToken] a client that calls [Get] one microsecond after the timer's
    deadline, before the goroutine has asked for the write lock, reads
    "tok-A" as well. *)
Lemma C1_stale_read_after_timer :
  (exists s rd,
     Token.run (Token.NewToken false tokAB)
       [Token.CallInitial; Token.AuthorizeReturns;
        Token.Tick (90 * Millisecond - 1); Token.GetBegin 1; Token.GetBegin 2;
        Token.CaseSend 1; Token.Tick 2; Token.CaseSend 2] = Some s /\
     hd_error (Token.readlog s) = Some rd /\
     r_client rd = 2%nat /\
     r_time rd = 90 * Millisecond + 1 /\
     r_resp rd = mkResp "tok-A"%string None /\
     map computed_expiry (Token.fetchlog s) = [90 * Millisecond] /\
     ~ fresh (Token.fetchlog s) rd) /\
  (exists s rd,
     MToken.run (MToken.NewMToken tokAB false tokAB)
       [MToken.LockInitial; MToken.LockAcquired; MToken.AuthorizeReturns;
        MToken.Tick (90 * Millisecond + 1000); MToken.RLock 1;
        MToken.GetReturns 1] = Some s /\
     hd_error (MToken.readlog s) = Some rd /\
     r_time rd = 90 * Millisecond + 1000 /\
     r_resp rd = mkResp "tok-A"%string None /\
     map computed_expiry (MToken.fetchlog s) = [90 * Millisecond] /\
     ~ fresh (MToken.fetchlog s) rd).
Proof.
  split.
  - do 2 eexists. split; [vm_compute; reflexivity|].
    split; [reflexivity|]. split; [reflexivity|]. split; [reflexivity|].
    split; [reflexivity|]. split; [reflexivity|].
    intros [f [[<-|[]] [_ [_ Hle]]]]. vm_compute in Hle. apply Hle. reflexivity.
  - do 2 eexists. split; [vm_compute; reflexivity|].
    split; [reflexivity|]. split; [reflexivity|]. split; [reflexivity|].
    split; [reflexivity|].
    intros [f [[<-|[]] [_ [_ Hle]]]]. vm_compute in Hle. apply Hle. reflexivity.
Qed.

(** C2 (single-flight).  In every reachable state of either cell at most
    one Authorizer call is in flight, however many clients are inside
    [Get]; the counter is exact: the calls started are the calls that
    returned plus the calls in flight. *)
Theorem C2_single_flight :
  (forall ctx auth s, Token.reachable ctx auth s ->
     (Token.in_flight s <= 1)%nat /\
     Token.calls s = (length (Token.fetchlog s) + Token.in_flight s)%nat) /\
  (forall authFunc ctx auth s, MToken.reachable authFunc ctx auth s ->
     (MToken.in_flight s <= 1)%nat /\
     MToken.calls s = (length (MToken.fetchlog s) + MToken.in_flight s)%nat).
Proof.
  split.
  - intros ctx auth s Hr. destruct (TInv_reachable _ _ _ Hr) as [_ Hf Hc _ _ _ _].
    split; [|exact Hc]. rewrite Hf. unfold flight_of.
    destruct (pc_eqb _ _); lia.
  - intros authFunc ctx auth s Hr.
    destruct (MInv_reachable _ _ _ _ Hr) as [_ Hf Hc _ _ _ _ _ _].
    split; [|exact Hc]. rewrite Hf. unfold flight_of.
    destruct (pc_eqb _ _); lia.
Qed.

(** Fifty clients enter [Get] while the second call is in flight. *)
Lemma C2_single_flight_witness :
  (exists s,
     Token.run (Token.NewToken false tokAB)
       ([Token.CallInitial; Token.AuthorizeReturns; Token.Tick (90 * Millisecond);
         Token.CaseExpired] ++ map Token.GetBegin (seq 0 50)) = Some s /\
     Token.in_flight s = 1%nat /\ length (Token.receivers s) = 50%nat /\
     (Token.in_flight s <= 1)%nat) /\
  (exists s,
     MToken.run (MToken.NewMToken tokDown false tokAB)
       [MToken.LockInitial; MToken.LockAcquired] = Some s /\
     MToken.in_flight s = 1%nat /\ (MToken.in_flight s <= 1)%nat).
Proof.
  split.
  - eexists. split; [vm_compute; reflexivity|].
    split; [reflexivity|]. split; [reflexivity|].
    refine (proj1 (proj1 C2_single_flight false tokAB _ _)).
    exists ([Token.CallInitial; Token.AuthorizeReturns;
             Token.Tick (90 * Millisecond); Token.CaseExpired]
            ++ map Token.GetBegin (seq 0 50)).
    vm_compute. reflexivity.
  - eexists. split; [vm_compute; reflexivity|]. split; [reflexivity|].
    refine (proj1 (proj2 C2_single_flight tokDown false tokAB _ _)).
    exists [MToken.LockInitial; MToken.LockAcquired]. vm_compute. reflexivity.
Defined.

(** C3 (initial fetch before serving) on [MToken].  [NewMToken] returns
    as soon as the goroutine is spawned.  A client that calls [Get] before
    the goroutine has reached [m.mu.Lock()] obtains the read lock and
    returns the fields as the struct literal left them: the empty token and
    a nil error, although no Authorizer call has been started.  The comment
    at l.431, "Set the initial token, before any client can request it",
    does not hold for this cell. *)
Theorem C3_MToken_read_before_first_fetch authFunc ctx auth :
  exists s,
    MToken.run (MToken.NewMToken authFunc ctx auth)
      [MToken.RLock 1; MToken.GetReturns 1] = Some s /\
    MToken.calls s = 0%nat /\ MToken.fetchlog s = [] /\
    MToken.readlog s = [mkRead 1 0 (mkResp EmptyString None) None] /\
    ~ fetched (MToken.fetchlog s) (mkRead 1 0 (mkResp EmptyString None) None).
Proof.
  eexists. split; [reflexivity|]. simpl.
  repeat split. intros [f [[] _]].
Qed.

(** C4, as the code has it (reads and a refresh in progress).  In either
    cell, while an Authorizer call is in flight no read completes, however
    the schedule continues, until that call has returned: [Token] is not in
    [select] and [MToken] holds the write lock.  While the goroutine waits in
    [select], a waiting client can be served at once, with no Authorizer
    call: the send case is enabled and hands over the slot of the newest
    completed fetch ([Token]), respectively the read lock can be obtained
    and [Get] returns the fields ([MToken]); this stays so for as long as
    the goroutine stays in [select] and the client has not been served.
    The client is not bound to be served then.  When [select] takes the
    expiry case first, the client waits until the Authorizer call that
    follows has returned; when the [select] of a [Token] takes the
    [ctx.Done()] case first, the client is never served. *)
Theorem C4_reads_wait_for_refresh :
  (forall ctx auth s, Token.reachable ctx auth s ->
     (Token.in_flight s = 1%nat ->
        forall tr s', Token.no_return tr = true -> Token.run s tr = Some s' ->
          Token.readlog s' = Token.readlog s /\
          forall c, Token.step s' (Token.CaseSend c) = None) /\
     (Token.pc s = InSelect ->
        forall c, In c (Token.receivers s) ->
          (forall tr s1, unserved c tr = true -> Token.run s tr = Some s1 ->
             exists s' g,
               Token.step s1 (Token.CaseSend c) = Some s' /\
               hd_error (Token.fetchlog s) = Some g /\
               Token.readlog s' =
                 mkRead c (Token.now s1) (f_resp g) (Token.expired s)
                   :: Token.readlog s1) /\
          (forall s1, Token.step s Token.CaseExpired = Some s1 ->
             Token.in_flight s1 = 1%nat /\
             forall tr s2, Token.no_return tr = true ->
               Token.run s1 tr = Some s2 ->
               Token.step s2 (Token.CaseSend c) = None) /\
          (forall s1, Token.step s Token.CaseDone = Some s1 ->
             forall tr s2, Token.run s1 tr = Some s2 ->
               Token.step s2 (Token.CaseSend c) = None))) /\
  (forall authFunc ctx auth s, MToken.reachable authFunc ctx auth s ->
     (MToken.in_flight s = 1%nat ->
        forall tr s', MToken.no_return tr = true -> MToken.run s tr = Some s' ->
          MToken.readlog s' = MToken.readlog s /\
          forall c, MToken.step s' (MToken.RLock c) = None /\
                    MToken.step s' (MToken.GetReturns c) = None) /\
     (MToken.pc s = InSelect ->
        forall c, ~ In c (MToken.readers s) ->
          (forall tr s1, lock_free c tr = true -> MToken.run s tr = Some s1 ->
             exists s2 s3,
               MToken.step s1 (MToken.RLock c) = Some s2 /\
               MToken.step s2 (MToken.GetReturns c) = Some s3 /\
               MToken.readlog s3 =
                 mkRead c (MToken.now s1)
                   (mkResp (MToken.token s) (MToken.tokenErr s))
                   (MToken.expired s) :: MToken.readlog s1) /\
          (forall s1, MToken.step s MToken.CaseExpired = Some s1 ->
             forall tr s2, MToken.no_return tr = true ->
               MToken.run s1 tr = Some s2 ->
               MToken.step s2 (MToken.RLock c) = None))).
Proof.
  split.
  - intros ctx auth s Hr. pose proof (TInv_reachable _ _ _ Hr) as Hinv. split.
    + intros Hfl tr s' Hq Hrun.
      destruct Hinv as [_ Hf _ _ _ _ _]. rewrite Hf in Hfl.
      apply flight_one in Hfl.
      destruct (Token_in_call_run _ _ _ Hfl Hq Hrun) as [Hp' Hl].
      split; [exact Hl|]. intros c. unfold Token.step. now rewrite Hp'.
    + intros Hp c Hc. split; [|split].
      * intros tr s1 Hq Hrun.
        destruct (Token_unserved_run _ _ _ _ Hq Hc Hrun)
          as [Hc1 [Hp1 [Hl1 [_ [_ Hx1]]]]].
        assert (Hinv1 : TInv auth s1).
        { apply (TInv_reachable auth ctx).
          apply (Token_reachable_run ctx auth s tr s1 Hr Hrun). }
        assert (He : exists s', Token.step s1 (Token.CaseSend c) = Some s').
        { unfold Token.step. rewrite Hp1, Hp.
          apply parked_In in Hc1. rewrite Hc1. eexists. reflexivity. }
        destruct He as [s' He]. exists s'.
        destruct (Token_send_newest _ _ _ _ Hinv1 He)
          as [g [rest [Hl [_ [_ Hrd]]]]].
        exists g. split; [exact He|]. rewrite <- Hl1, Hl, <- Hx1.
        split; [reflexivity | exact Hrd].
      * intros s1 He.
        assert (Hs1 : Token.pc s1 = InAuthorize /\ Token.in_flight s1 = 1%nat).
        { destruct Hinv as [_ Hf _ _ _ _ _]. rewrite Hp in Hf.
          unfold Token.step in He. rewrite Hp in He.
          destruct (fired (Token.expired s) (Token.now s)); [|discriminate].
          injection He as <-. cbn [Token.pc Token.in_flight].
          rewrite Hf. split; reflexivity. }
        destruct Hs1 as [Hp1 Hf1]. split; [exact Hf1|].
        intros tr s2 Hq Hrun.
        destruct (Token_in_call_run _ _ _ Hp1 Hq Hrun) as [Hp2 _].
        unfold Token.step. now rewrite Hp2.
      * intros s1 He tr s2 Hrun.
        assert (Hp1 : Token.pc s1 = Returned).
        { unfold Token.step in He. rewrite Hp in He.
          destruct (Token.ctx_done s); [|discriminate].
          injection He as <-. reflexivity. }
        destruct (Token_returned_run _ _ _ Hp1 Hrun) as [Hp2 _].
        unfold Token.step. now rewrite Hp2.
  - intros authFunc ctx auth s Hr.
    pose proof (MInv_reachable _ _ _ _ Hr) as Hinv. split.
    + intros Hfl tr s' Hq Hrun.
      destruct Hinv as [_ Hf _ Hw Hrd _ _ _ _]. rewrite Hf in Hfl.
      apply flight_one in Hfl. rewrite Hfl in Hw. simpl in Hw.
      destruct (MToken_in_call_run _ _ _ Hfl Hw (Hrd Hw) Hq Hrun)
        as [Hp' [Hw' [Hrd' Hl]]].
      split; [exact Hl|]. intros c. unfold MToken.step.
      rewrite Hw', Hrd'. simpl. auto.
    + intros Hp c Hc. split.
      * intros tr s1 Hq Hrun.
        destruct Hinv as [_ _ _ Hw _ _ _ _ _]. rewrite Hp in Hw. simpl in Hw.
        destruct (MToken_lock_free_run _ _ _ _ Hq (or_introl Hp) Hw Hc Hrun)
          as [Hp1 [Hw1 [Hc1 [Ht1 [He1 Hx1]]]]].
        assert (Hnp : parked c (MToken.readers s1) = false).
        { destruct (parked c (MToken.readers s1)) eqn:E; [|reflexivity].
          apply parked_In in E. contradiction. }
        assert (Hnw : pc_eqb (MToken.pc s1) WantLock = false).
        { destruct Hp1 as [E|E]; now rewrite E. }
        unfold MToken.step at 1. rewrite Hw1, Hnw, Hnp. cbn [orb].
        eexists. eexists. split; [reflexivity|].
        unfold MToken.step. cbn [MToken.readers parked existsb].
        rewrite Nat.eqb_refl. cbn [orb].
        split; [reflexivity|].
        cbn [MToken.readlog MToken.now MToken.token MToken.tokenErr
             MToken.expired].
        now rewrite Ht1, He1, Hx1.
      * intros s1 He tr s2 Hq Hrun.
        assert (Hp1 : MToken.pc s1 = WantLock).
        { unfold MToken.step in He. rewrite Hp in He.
          destruct (fired (MToken.expired s) (MToken.now s)); [|discriminate].
          injection He as <-. reflexivity. }
        destruct (MToken_wants_lock_run _ _ _ (or_introl Hp1) Hq Hrun)
          as [_ Hb].
        apply Hb.
Qed.

(** Client 2 arrives while the second call is in flight.  Then, for each
    cell, a client waiting while the goroutine is in [select] with the
    timer fired and the context cancelled: it can still be served after
    other events, and is not once the expiry or the [ctx.Done()] case has
    been taken. *)
Lemma C4_reads_wait_for_refresh_witness :
  ((exists s s',
      Token.run (Token.NewToken false tokAB)
        [Token.CallInitial; Token.AuthorizeReturns; Token.GetBegin 1;
         Token.CaseSend 1; Token.Tick (90 * Millisecond); Token.CaseExpired]
      = Some s /\
      Token.run s [Token.GetBegin 2; Token.Tick (7 * Millisecond)] = Some s' /\
      Token.readlog s' = Token.readlog s /\
      Token.step s' (Token.CaseSend 2) = None) /\
   (exists s,
      Token.run (Token.NewToken false tokAB)
        [Token.CallInitial; Token.AuthorizeReturns; Token.GetBegin 2;
         Token.Tick (90 * Millisecond); Token.Cancel] = Some s /\
      (exists s1 s',
         Token.run s [Token.GetBegin 3; Token.CaseSend 3;
                      Token.Tick (1 * Millisecond)] = Some s1 /\
         Token.step s1 (Token.CaseSend 2) = Some s' /\
         hd_error (Token.readlog s') =
           Some (mkRead 2 (91 * Millisecond) (mkResp "tok-A"%string None)
                   (Some (90 * Millisecond)))) /\
      (exists s1 s2,
         Token.step s Token.CaseExpired = Some s1 /\
         Token.in_flight s1 = 1%nat /\
         Token.run s1 [Token.Tick (7 * Millisecond)] = Some s2 /\
         Token.step s2 (Token.CaseSend 2) = None) /\
      (exists s1 s2,
         Token.step s Token.CaseDone = Some s1 /\
         Token.run s1 [Token.Tick (3600000 * Millisecond)] = Some s2 /\
         Token.step s2 (Token.CaseSend 2) = None))) /\
  ((exists s s',
      MToken.run (MToken.NewMToken tokDown false tokAB)
        [MToken.LockInitial; MToken.LockAcquired; MToken.AuthorizeReturns;
         MToken.Tick (90 * Millisecond); MToken.CaseExpired; MToken.LockAcquired]
      = Some s /\
      MToken.run s [MToken.Tick (7 * Millisecond)] = Some s' /\
      MToken.readlog s' = MToken.readlog s /\
      MToken.step s' (MToken.RLock 2) = None) /\
   (exists s,
      MToken.run (MToken.NewMToken tokAB false tokAB)
        [MToken.LockInitial; MToken.LockAcquired; MToken.AuthorizeReturns;
         MToken.Tick (90 * Millisecond)] = Some s /\
      (exists s1 s2 s3,
         MToken.run s [MToken.RLock 1; MToken.Tick (1 * Millisecond);
                       MToken.GetReturns 1] = Some s1 /\
         MToken.step s1 (MToken.RLock 2) = Some s2 /\
         MToken.step s2 (MToken.GetReturns 2) = Some s3 /\
         hd_error (MToken.readlog s3) =
           Some (mkRead 2 (91 * Millisecond) (mkResp "tok-A"%string None)
                   (Some (90 * Millisecond)))) /\
      (exists s1 s2,
         MToken.step s MToken.CaseExpired = Some s1 /\
         MToken.run s1 [MToken.Tick (7 * Millisecond); MToken.LockAcquired]
         = Some s2 /\
         MToken.step s2 (MToken.RLock 2) = None))).
Proof.
  split; split.
  - eassert (E1 : Token.run (Token.NewToken false tokAB)
                    [Token.CallInitial; Token.AuthorizeReturns; Token.GetBegin 1;
                     Token.CaseSend 1; Token.Tick (90 * Millisecond);
                     Token.CaseExpired] = Some _) by (vm_compute; reflexivity).
    match type of E1 with
    | _ = Some ?s =>
        eassert (E2 : Token.run s [Token.GetBegin 2; Token.Tick (7 * Millisecond)]
                      = Some _) by (vm_compute; reflexivity);
        destruct (proj1 C4_reads_wait_for_refresh false tokAB s
                    (ex_intro _ _ E1)) as [H _];
        destruct (H eq_refl [Token.GetBegin 2; Token.Tick (7 * Millisecond)]
                    _ eq_refl E2) as [Hl Hb]
    end.
    do 2 eexists. split; [exact E1|]. split; [exact E2|].
    split; [exact Hl | apply Hb].
  - eassert (E1 : Token.run (Token.NewToken false tokAB)
                    [Token.CallInitial; Token.AuthorizeReturns; Token.GetBegin 2;
                     Token.Tick (90 * Millisecond); Token.Cancel] = Some _)
      by (vm_compute; reflexivity).
    match type of E1 with
    | _ = Some ?s =>
        eassert (E2 : Token.run s [Token.GetBegin 3; Token.CaseSend 3;
                                   Token.Tick (1 * Millisecond)] = Some _)
          by (vm_compute; reflexivity);
        eassert (E3 : Token.step s Token.CaseExpired = Some _)
          by (vm_compute; reflexivity);
        eassert (E4 : Token.step s Token.CaseDone = Some _)
          by (vm_compute; reflexivity);
        destruct (proj1 C4_reads_wait_for_refresh false tokAB s
                    (ex_intro _ _ E1)) as [_ H];
        destruct (H eq_refl 2%nat (or_introl eq_refl)) as [Ha [Hb Hc]];
        destruct (Ha [Token.GetBegin 3; Token.CaseSend 3;
                      Token.Tick (1 * Millisecond)] _ eq_refl E2)
          as [s' [g [Hs [Hg Hrd]]]];
        destruct (Hb _ E3) as [Hfl Hb'];
        pose proof (Hc _ E4) as Hc'
    end.
    eexists. split; [exact E1|]. split; [|split].
    + do 2 eexists. split; [exact E2|]. split; [exact Hs|].
      rewrite Hrd. vm_compute in Hg. injection Hg as <-.
      vm_compute. reflexivity.
    + match type of E3 with
      | _ = Some ?s1 =>
          eassert (E5 : Token.run s1 [Token.Tick (7 * Millisecond)] = Some _)
            by (vm_compute; reflexivity)
      end.
      do 2 eexists. split; [exact E3|]. split; [exact Hfl|].
      split; [exact E5|].
      exact (Hb' [Token.Tick (7 * Millisecond)] _ eq_refl E5).
    + match type of E4 with
      | _ = Some ?s1 =>
          eassert (E5 : Token.run s1 [Token.Tick (3600000 * Millisecond)] = Some _)
            by (vm_compute; reflexivity)
      end.
      do 2 eexists. split; [exact E4|]. split; [exact E5|].
      exact (Hc' _ _ E5).
  - eassert (E1 : MToken.run (MToken.NewMToken tokDown false tokAB)
                    [MToken.LockInitial; MToken.LockAcquired;
                     MToken.AuthorizeReturns; MToken.Tick (90 * Millisecond);
                     MToken.CaseExpired; MToken.LockAcquired] = Some _)
      by (vm_compute; reflexivity).
    match type of E1 with
    | _ = Some ?s =>
        eassert (E2 : MToken.run s [MToken.Tick (7 * Millisecond)] = Some _)
          by (vm_compute; reflexivity);
        destruct (proj2 C4_reads_wait_for_refresh tokDown false tokAB s
                    (ex_intro _ _ E1)) as [H _];
        destruct (H eq_refl [MToken.Tick (7 * Millisecond)] _ eq_refl E2)
          as [Hl Hb]
    end.
    do 2 eexists. split; [exact E1|]. split; [exact E2|].
    split; [exact Hl | apply Hb].
  - eassert (E1 : MToken.run (MToken.NewMToken tokAB false tokAB)
                    [MToken.LockInitial; MToken.LockAcquired;
                     MToken.AuthorizeReturns; MToken.Tick (90 * Millisecond)]
                  = Some _) by (vm_compute; reflexivity).
    match type of E1 with
    | _ = Some ?s =>
        eassert (E2 : MToken.run s [MToken.RLock 1; MToken.Tick (1 * Millisecond);
                                    MToken.GetReturns 1] = Some _)
          by (vm_compute; reflexivity);
        eassert (E3 : MToken.step s MToken.CaseExpired = Some _)
          by (vm_compute; reflexivity);
        destruct (proj2 C4_reads_wait_for_refresh tokAB false tokAB s
                    (ex_intro _ _ E1)) as [_ H];
        assert (Hn : ~ In 2%nat (MToken.readers s)) by (intros []);
        destruct (H eq_refl 2%nat Hn) as [Ha Hb];
        destruct (Ha [MToken.RLock 1; MToken.Tick (1 * Millisecond);
                      MToken.GetReturns 1] _ eq_refl E2)
          as [s2 [s3 [Hs2 [Hs3 Hrd]]]];
        pose proof (Hb _ E3) as Hb'
    end.
    eexists. split; [exact E1|]. split.
    + do 3 eexists. split; [exact E2|]. split; [exact Hs2|].
      split; [exact Hs3|]. rewrite Hrd. vm_compute. reflexivity.
    + match type of E3 with
      | _ = Some ?s1 =>
          eassert (E5 : MToken.run s1 [MToken.Tick (7 * Millisecond);
                                       MToken.LockAcquired] = Some _)
            by (vm_compute; reflexivity)
      end.
      do 2 eexists. split; [exact E3|]. split; [exact E5|].
      exact (Hb' [MToken.Tick (7 * Millisecond); MToken.LockAcquired] _
               eq_refl E5).
Defined.

(** C4, as the specification words it, fails.  Client 1 has been served,
    so the cell has been serving; the timer fires at 90ms and the loop calls
    the Authorizer; client 2 then enters [Get].  The call is in flight and
    client 2 cannot be served, at that instant or at any later one, as long
    as the call has not returned.  It is served after the call has
    returned, at 98ms.  The same holds for [MToken], whose goroutine holds
    the write lock for the duration of the call. *)
Lemma C4_reader_blocked_during_refresh :
  (exists s,
     Token.run (Token.NewToken false tokAB)
       [Token.CallInitial; Token.AuthorizeReturns; Token.GetBegin 1;
        Token.CaseSend 1; Token.Tick (90 * Millisecond); Token.CaseExpired;
        Token.GetBegin 2] = Some s /\
     length (Token.readlog s) = 1%nat /\
     Token.in_flight s = 1%nat /\ In 2%nat (Token.receivers s) /\
     Token.step s (Token.CaseSend 2) = None /\
     (forall tr s', Token.no_return tr = true -> Token.run s tr = Some s' ->
        Token.step s' (Token.CaseSend 2) = None) /\
     exists s' s'',
       Token.run s [Token.Tick (8 * Millisecond); Token.AuthorizeReturns]
       = Some s' /\
       Token.step s' (Token.CaseSend 2) = Some s'' /\
       hd_error (Token.readlog s'') =
         Some (mkRead 2 (98 * Millisecond) (mkResp "tok-B"%string None)
                 (Some (188 * Millisecond)))) /\
  (exists s,
     MToken.run (MToken.NewMToken tokAB false tokAB)
       [MToken.LockInitial; MToken.LockAcquired; MToken.AuthorizeReturns;
        MToken.RLock 1; MToken.GetReturns 1;
        MToken.Tick (90 * Millisecond); MToken.CaseExpired; MToken.LockAcquired]
     = Some s /\
     length (MToken.readlog s) = 1%nat /\
     MToken.in_flight s = 1%nat /\
     MToken.step s (MToken.RLock 2) = None).
Proof.
  split.
  - eexists. split; [vm_compute; reflexivity|].
    split; [reflexivity|]. split; [reflexivity|].
    split; [simpl; auto|]. split; [reflexivity|]. split.
    + intros tr s' Hq Hrun.
      destruct (fun H => Token_in_call_run _ _ _ H Hq Hrun) as [Hp _];
        [reflexivity|].
      unfold Token.step. now rewrite Hp.
    + do 2 eexists. split; [vm_compute; reflexivity|].
      split; [vm_compute; reflexivity|]. reflexivity.
  - eexists. split; [vm_compute; reflexivity|].
    split; [reflexivity|]. split; reflexivity.
Qed.



(** C6 (shutdown).  In either cell the goroutine leaves its loop only
    through the [ctx.Done()] case of [select], which needs the context to
    be cancelled; the case can be taken whenever the goroutine waits in
    [select] with the context cancelled; and once the goroutine has
    returned, no schedule starts another Authorizer call: the call
    counter and the fetch log stay as they are and no call is in flight. *)
Theorem C6_shutdown :
  (forall ctx auth s, Token.reachable ctx auth s ->
     (forall e s', Token.step s e = Some s' ->
        Token.pc s <> Returned -> Token.pc s' = Returned ->
        e = Token.CaseDone /\ Token.ctx_done s = true) /\
     (Token.pc s = InSelect -> Token.ctx_done s = true ->
        exists s', Token.step s Token.CaseDone = Some s' /\
                   Token.pc s' = Returned) /\
     (Token.pc s = Returned ->
        Token.ctx_done s = true /\
        forall tr s', Token.run s tr = Some s' ->
          Token.pc s' = Returned /\ Token.calls s' = Token.calls s /\
          Token.in_flight s' = 0%nat /\
          Token.fetchlog s' = Token.fetchlog s)) /\
  (forall authFunc ctx auth s, MToken.reachable authFunc ctx auth s ->
     (forall e s', MToken.step s e = Some s' ->
        MToken.pc s <> Returned -> MToken.pc s' = Returned ->
        e = MToken.CaseDone /\ MToken.ctx_done s = true) /\
     (MToken.pc s = InSelect -> MToken.ctx_done s = true ->
        exists s', MToken.step s MToken.CaseDone = Some s' /\
                   MToken.pc s' = Returned) /\
     (MToken.pc s = Returned ->
        MToken.ctx_done s = true /\
        forall tr s', MToken.run s tr = Some s' ->
          MToken.pc s' = Returned /\ MToken.calls s' = MToken.calls s /\
          MToken.in_flight s' = 0%nat /\
          MToken.fetchlog s' = MToken.fetchlog s)).
Proof.
  split.
  - intros ctx auth s Hr. split; [|split].
    + intros e s' He Hn Hp.
      destruct (Token_exit_step _ _ _ He Hn Hp) as [-> [_ Hd]]. auto.
    + intros Hp Hd. unfold Token.step. rewrite Hp, Hd. eexists. split; reflexivity.
    + intros Hp. split.
      * destruct Hr as [tr0 H0].
        destruct (Token_exit_run _ _ _ H0 Hp) as [Hp0|[_ Hd]];
          [discriminate | exact Hd].
      * intros tr s' H.
        destruct (Token_returned_run _ _ _ Hp H) as [Hp' [Hc [Hi [Hf _]]]].
        repeat split; auto. rewrite Hi.
        destruct (TInv_reachable _ _ _ Hr) as [_ Hfl _ _ _ _ _].
        rewrite Hfl, Hp. reflexivity.
  - intros authFunc ctx auth s Hr. split; [|split].
    + intros e s' He Hn Hp.
      destruct (MToken_exit_step _ _ _ He Hn Hp) as [-> [_ Hd]]. auto.
    + intros Hp Hd. unfold MToken.step. rewrite Hp, Hd.
      eexists. split; reflexivity.
    + intros Hp. split.
      * destruct Hr as [tr0 H0].
        destruct (MToken_exit_run _ _ _ H0 Hp) as [Hp0|[_ Hd]];
          [discriminate | exact Hd].
      * intros tr s' H.
        destruct (MToken_returned_run _ _ _ Hp H) as [Hp' [Hc [Hi [Hf _]]]].
        repeat split; auto. rewrite Hi.
        destruct (MInv_reachable _ _ _ _ Hr) as [_ Hfl _ _ _ _ _ _ _].
        rewrite Hfl, Hp. reflexivity.
Qed.

(** The context is cancelled after the first fetch; the loop takes the
    [ctx.Done()] case; the timer then fires and clients arrive, and the
    call counter still stands at one. *)
Lemma C6_shutdown_witness :
  (exists s s',
     Token.run (Token.NewToken false tokAB)
       [Token.CallInitial; Token.AuthorizeReturns; Token.Cancel;
        Token.CaseDone] = Some s /\
     Token.run s [Token.Tick (200 * Millisecond); Token.GetBegin 1] = Some s' /\
     Token.pc s' = Returned /\ Token.calls s' = 1%nat) /\
  (exists s s',
     MToken.run (MToken.NewMToken tokDown false tokAB)
       [MToken.LockInitial; MToken.LockAcquired; MToken.AuthorizeReturns;
        MToken.Cancel; MToken.CaseDone] = Some s /\
     MToken.run s [MToken.Tick (200 * Millisecond); MToken.RLock 1;
                   MToken.GetReturns 1] = Some s' /\
     MToken.pc s' = Returned /\ MToken.calls s' = 1%nat).
Proof.
  split.
  - eassert (E1 : Token.run (Token.NewToken false tokAB)
                    [Token.CallInitial; Token.AuthorizeReturns; Token.Cancel;
                     Token.CaseDone] = Some _) by (vm_compute; reflexivity).
    match type of E1 with
    | _ = Some ?s =>
        eassert (E2 : Token.run s [Token.Tick (200 * Millisecond);
                                   Token.GetBegin 1] = Some _)
          by (vm_compute; reflexivity);
        destruct (proj1 C6_shutdown false tokAB s (ex_intro _ _ E1))
          as [_ [_ H]];
        destruct (H eq_refl) as [_ H'];
        destruct (H' _ _ E2) as [Hp [Hc _]]
    end.
    do 2 eexists. split; [exact E1|]. split; [exact E2|].
    split; [exact Hp | exact Hc].
  - eassert (E1 : MToken.run (MToken.NewMToken tokDown false tokAB)
                    [MToken.LockInitial; MToken.LockAcquired;
                     MToken.AuthorizeReturns; MToken.Cancel; MToken.CaseDone]
                  = Some _) by (vm_compute; reflexivity).
    match type of E1 with
    | _ = Some ?s =>
        eassert (E2 : MToken.run s [MToken.Tick (200 * Millisecond);
                                    MToken.RLock 1; MToken.GetReturns 1]
                      = Some _) by (vm_compute; reflexivity);
        destruct (proj2 C6_shutdown tokDown false tokAB s (ex_intro _ _ E1))
          as [_ [_ H]];
        destruct (H eq_refl) as [_ H'];
        destruct (H' _ _ E2) as [Hp [Hc _]]
    end.
    do 2 eexists. split; [exact E1|]. split; [exact E2|].
    split; [exact Hp | exact Hc].
Defined.

(** C7 (the supplied Authorizer) on [MToken].  [NewMToken] stores the
    package-level [authFunc] and drops its parameter [auth]: with the
    endpoint [authFunc] down and a working [auth] supplied, the first fetch
    is a call of [authFunc], and the client reads its error.  Construction
    itself makes no call. *)
Theorem C7_NewMToken_ignores_auth :
  (forall authFunc ctx auth,
     MToken.authorize (MToken.NewMToken authFunc ctx auth) = authFunc /\
     MToken.calls (MToken.NewMToken authFunc ctx auth) = 0%nat /\
     MToken.pc (MToken.NewMToken authFunc ctx auth) = AtStart) /\
  (exists s,
     MToken.run (MToken.NewMToken tokDown false tokAB)
       [MToken.LockInitial; MToken.LockAcquired; MToken.AuthorizeReturns;
        MToken.RLock 1; MToken.GetReturns 1] = Some s /\
     tokAB 0%nat = ("tok-A"%string, 100 * Millisecond, None) /\
     MToken.fetchlog s =
       [mkFetch 0 0 EmptyString (100 * Millisecond)
          (Some "temporary API error"%string)] /\
     MToken.readlog s =
       [mkRead 1 0 (mkResp EmptyString (Some "temporary API error"%string))
          (Some (90 * Millisecond))]).
Proof.
  split.
  - intros. repeat split.
  - eexists. split; [vm_compute; reflexivity|]. repeat split.
Qed.

(** C8, as the code has it (timer argument).  When a call returns a
    duration [d] from which the margin can be subtracted in [int64], the
    [Token] loop hands [d - lifeSpanSafetyMargin] to [time.After] as it is.
    For [d <= lifeSpanSafetyMargin] that argument is zero or negative, the
    timer is ready at once and the next call can start at the same instant.
    For [d > lifeSpanSafetyMargin] the timer becomes ready exactly
    [d - lifeSpanSafetyMargin] after the call returned: while the loop
    waits, the expiry case can be taken from that instant on and not
    before. *)
Theorem C8_timer_armed_unclamped ctx auth s tok d e :
  Token.reachable ctx auth s -> Token.pc s = InAuthorize ->
  auth (Nat.pred (Token.calls s)) = (tok, d, e) ->
  min_int64 + lifeSpanSafetyMargin <= d <= max_int64 ->
  exists s',
    Token.step s Token.AuthorizeReturns = Some s' /\
    Token.now s' = Token.now s /\
    timer_arg d = d - lifeSpanSafetyMargin /\
    Token.expired s' = Some (After (Token.now s) (timer_arg d)) /\
    (d <= lifeSpanSafetyMargin ->
       timer_arg d <= 0 /\
       exists s'', Token.step s' Token.CaseExpired = Some s'' /\
                   Token.now s'' = Token.now s /\
                   Token.calls s'' = S (Token.calls s)) /\
    (lifeSpanSafetyMargin < d ->
       forall tr s'', Token.waiting tr = true -> Token.run s' tr = Some s'' ->
         (Token.step s'' Token.CaseExpired <> None <->
          Token.now s + (d - lifeSpanSafetyMargin) <= Token.now s'')).
Proof.
  intros Hr Hp Ha Hd.
  destruct (TInv_reachable _ _ _ Hr) as [Hau _ _ _ _ _ _].
  unfold Token.step at 1. rewrite Hp, Hau, Ha.
  eexists. split; [reflexivity|]. simpl.
  split; [reflexivity|].
  assert (Harg : timer_arg d = d - lifeSpanSafetyMargin)
    by (apply sub64_margin_safe; exact Hd).
  split; [exact Harg|]. split; [reflexivity|]. split.
  - intros Hle. split; [lia|].
    unfold Token.step. simpl. rewrite After_nonpos by lia.
    rewrite Z.leb_refl. eexists. repeat split; reflexivity.
  - intros Hlt tr s'' Hq Hrun.
    destruct (Token_waiting_run _ _ _ Hq Hrun) as [Hpc [Hx _]]. simpl in *.
    unfold Token.step. rewrite Hpc, Hx. simpl.
    rewrite After_pos by lia. rewrite Harg.
    destruct (Z.leb_spec (Token.now s + (d - lifeSpanSafetyMargin)) (Token.now s'')).
    + split; [auto | discriminate].
    + split; [congruence | lia].
Qed.

(** With a lifespan of 100ms the expiry case is not enabled at 89ms and is
    enabled at 90ms; with a lifespan of 5ms the argument is -5ms and the
    second call starts at instant 0. *)
Lemma C8_timer_armed_unclamped_witness :
  (exists s s' s89 s90,
     Token.run (Token.NewToken false tokAB) [Token.CallInitial] = Some s /\
     Token.step s Token.AuthorizeReturns = Some s' /\
     Token.run s' [Token.Tick (89 * Millisecond)] = Some s89 /\
     Token.run s' [Token.Tick (90 * Millisecond)] = Some s90 /\
     Token.step s89 Token.CaseExpired = None /\
     Token.step s90 Token.CaseExpired <> None) /\
  (exists s s' s'',
     Token.run (Token.NewToken false tokShort) [Token.CallInitial] = Some s /\
     Token.step s Token.AuthorizeReturns = Some s' /\
     timer_arg (5 * Millisecond) = - (5 * Millisecond) /\
     Token.step s' Token.CaseExpired = Some s'' /\
     Token.now s'' = 0 /\ Token.calls s'' = 2%nat).
Proof.
  split.
  - eassert (E1 : Token.run (Token.NewToken false tokAB) [Token.CallInitial]
                  = Some _) by (vm_compute; reflexivity).
    match type of E1 with
    | _ = Some ?s =>
        destruct (C8_timer_armed_unclamped false tokAB s "tok-A"%string
                    (100 * Millisecond) None
                    (ex_intro _ [Token.CallInitial] E1) eq_refl eq_refl)
          as [s' [E2 [_ [_ [_ [_ H]]]]]]
    end.
    { vm_compute. split; discriminate. }
    eassert (E89 : Token.run s' [Token.Tick (89 * Millisecond)] = Some _).
    { vm_compute in E2. injection E2 as <-. vm_compute. reflexivity. }
    eassert (E90 : Token.run s' [Token.Tick (90 * Millisecond)] = Some _).
    { vm_compute in E2. injection E2 as <-. vm_compute. reflexivity. }
    assert (Hlt : lifeSpanSafetyMargin < 100 * Millisecond) by reflexivity.
    pose proof (H Hlt [Token.Tick (89 * Millisecond)] _ eq_refl E89) as H89.
    pose proof (H Hlt [Token.Tick (90 * Millisecond)] _ eq_refl E90) as H90.
    do 4 eexists. split; [exact E1|]. split; [exact E2|].
    split; [exact E89|]. split; [exact E90|]. split.
    + reflexivity.
    + apply H90. vm_compute. discriminate.
  - eassert (E1 : Token.run (Token.NewToken false tokShort) [Token.CallInitial]
                  = Some _) by (vm_compute; reflexivity).
    match type of E1 with
    | _ = Some ?s =>
        destruct (C8_timer_armed_unclamped false tokShort s "tok-A"%string
                    (5 * Millisecond) None
                    (ex_intro _ [Token.CallInitial] E1) eq_refl eq_refl)
          as [s' [E2 [_ [Harg [_ [H _]]]]]]
    end.
    { vm_compute. split; discriminate. }
    destruct H as [_ [s'' [E3 [Hn Hc]]]]; [vm_compute; discriminate|].
    eexists. exists s', s''. split; [exact E1|]. split; [exact E2|].
    split; [reflexivity|]. split; [exact E3|]. split; [exact Hn | exact Hc].
Defined.

(** C8, as the specification words it, fails: with a lifespan of 5ms the
    loop hands -5ms to [time.After], not the clamped 0; the next call starts
    at the very instant the previous one returned; and with an Authorizer
    that answers at once, any number of fetches complete at one instant, so
    that no positive floor separates them. *)
Lemma C8_no_clamp_no_floor :
  exists s s',
    Token.run (Token.NewToken false tokShort)
      [Token.CallInitial; Token.Tick (8 * Millisecond); Token.AuthorizeReturns]
    = Some s /\
    timer_arg (5 * Millisecond) = - (5 * Millisecond) /\
    clamped_arg (5 * Millisecond) = 0 /\
    Token.expired s = Some (After (8 * Millisecond) (- (5 * Millisecond))) /\
    Token.step s Token.CaseExpired = Some s' /\
    Token.now s' = 8 * Millisecond /\
    map f_done (Token.fetchlog s') = [8 * Millisecond] /\
    Token.in_flight s' = 1%nat /\ Token.calls s' = 2%nat /\
    (forall n, exists sn,
       Token.run s (Token.spin n) = Some sn /\
       Token.now sn = 8 * Millisecond /\
       Token.calls sn = S n /\ length (Token.fetchlog sn) = S n) /\
    (exists s2,
       Token.run s (Token.spin 1) = Some s2 /\
       map f_done (Token.fetchlog s2) = [8 * Millisecond; 8 * Millisecond] /\
       ~ (exists q, 0 < q /\ spaced q (Token.fetchlog s2))).
Proof.
  do 2 eexists. split; [vm_compute; reflexivity|].
  split; [reflexivity|]. split; [reflexivity|]. split; [reflexivity|].
  split; [vm_compute; reflexivity|].
  split; [reflexivity|]. split; [reflexivity|]. split; [reflexivity|].
  split; [reflexivity|]. split.
  - intros n.
    match goal with
    | |- exists sn, Token.run ?s _ = _ /\ _ =>
        assert (Hp : Token.pc s = InSelect) by reflexivity;
        assert (Ha : Token.authorize s = tokShort) by reflexivity;
        assert (Hx : Token.expired s = Some (Token.now s)) by reflexivity;
        destruct (tokShort_spin n s Hp Ha Hx) as [sn [Hrun [Hn [Hc [Hl _]]]]]
    end.
    exists sn.
    split; [exact Hrun|]. split; [exact Hn|]. split; [exact Hc | exact Hl].
  - eexists. split; [vm_compute; reflexivity|]. split; [reflexivity|].
    intros [q [Hq [Hs _]]]. cbn [f_done] in Hs. lia.
Qed.

(** C9 (causal order).  Let a fetch [f] have completed, let client [c]
    then enter [Get], and let the [Token] loop later serve [c].  What [c]
    receives is the slot of the newest fetch [g] completed by then, and
    [g] is [f] or a later call: never the slot from before [f]. *)
Theorem C9_read_after_refresh ctx auth tr1 s1 f c s2 tr2 s3 s4 :
  Token.run (Token.NewToken ctx auth) tr1 = Some s1 ->
  In f (Token.fetchlog s1) ->
  Token.step s1 (Token.GetBegin c) = Some s2 ->
  Token.run s2 tr2 = Some s3 ->
  Token.step s3 (Token.CaseSend c) = Some s4 ->
  exists g,
    hd_error (Token.fetchlog s3) = Some g /\
    (f_index f <= f_index g)%nat /\
    auth (f_index g) = (f_token g, f_validFor g, f_err g) /\
    Token.readlog s4 =
      mkRead c (Token.now s3) (f_resp g) (Token.expired s3) :: Token.readlog s3.
Proof.
  intros H1 Hf Hb H2 Hs.
  assert (Hr3 : Token.reachable ctx auth s3).
  { eapply Token_reachable_run; [|exact H2].
    eapply Token_reachable_step; [|exact Hb]. now exists tr1. }
  pose proof (TInv_reachable _ _ _ Hr3) as Hinv.
  destruct (Token_send_newest _ _ _ _ Hinv Hs) as [g [rest [Hl [_ [_ Hrd]]]]].
  exists g. rewrite Hl. simpl. split; [reflexivity|].
  destruct Hinv as [_ _ _ _ _ Hlog _]. rewrite Hl in Hlog.
  destruct Hlog as [Hi [Ha _]].
  assert (Hin : In f (Token.fetchlog s3)).
  { destruct (Token_step_mono _ _ _ Hb) as [_ [_ [[l1 E1] _]]].
    destruct (Token_run_mono _ _ _ H2) as [_ [_ [[l2 E2] _]]].
    rewrite E2, E1. apply in_or_app. right. apply in_or_app. now right. }
  destruct (TInv_reachable _ _ _ Hr3) as [_ _ _ _ _ Hlog _].
  destruct (log_ok_In _ _ _ Hlog Hin) as [Hlt _].
  rewrite Hl in Hlt. simpl in Hlt.
  repeat split; [lia | exact Ha | exact Hrd].
Qed.

(** The scenario of the specification: "tok-A" at 0ms, the refresh at
    90ms, and the reader that arrives at 95ms gets "tok-B". *)
Lemma C9_read_after_refresh_witness :
  exists s1 s2 s3 s4,
    Token.run (Token.NewToken false tokAB)
      [Token.CallInitial; Token.AuthorizeReturns; Token.GetBegin 1;
       Token.CaseSend 1; Token.Tick (90 * Millisecond); Token.CaseExpired;
       Token.Tick (2 * Millisecond); Token.AuthorizeReturns;
       Token.Tick (3 * Millisecond)] = Some s1 /\
    Token.step s1 (Token.GetBegin 2) = Some s2 /\
    Token.run s2 [] = Some s3 /\
    Token.step s3 (Token.CaseSend 2) = Some s4 /\
    hd_error (Token.readlog s4) =
      Some (mkRead 2 (95 * Millisecond) (mkResp "tok-B"%string None)
              (Some (182 * Millisecond))).
Proof.
  eassert (E1 : Token.run (Token.NewToken false tokAB)
                  [Token.CallInitial; Token.AuthorizeReturns; Token.GetBegin 1;
                   Token.CaseSend 1; Token.Tick (90 * Millisecond);
                   Token.CaseExpired; Token.Tick (2 * Millisecond);
                   Token.AuthorizeReturns; Token.Tick (3 * Millisecond)]
                = Some _) by (vm_compute; reflexivity).
  match type of E1 with
  | _ = Some ?s1 =>
      eassert (E2 : Token.step s1 (Token.GetBegin 2) = Some _)
        by (vm_compute; reflexivity);
      assert (Hf : In (mkFetch 1 (92 * Millisecond) "tok-B"%string
                         (100 * Millisecond) None) (Token.fetchlog s1))
        by (left; reflexivity)
  end.
  match type of E2 with
  | _ = Some ?s2 =>
      eassert (E4 : Token.step s2 (Token.CaseSend 2) = Some _)
        by (vm_compute; reflexivity);
      destruct (C9_read_after_refresh _ _ _ _ _ _ _ [] s2 _
                  E1 Hf E2 eq_refl E4) as [g [Hg [_ [_ Hrd]]]]
  end.
  do 4 eexists.
  split; [exact E1|]. split; [exact E2|]. split; [reflexivity|].
  split; [exact E4|]. rewrite Hrd. injection Hg as <-. reflexivity.
Defined.

(** C10 (reads after the loop has exited).  When the goroutine of a
    [Token] has returned and a client then enters [Get], no schedule ever
    completes that read: the client stays parked on the channel, the send
    case is never enabled again, and the read log never grows.  What reads
    did complete earlier returned Authorizer results only, so no error
    value of the cell's own making exists. *)
Theorem C10_get_after_exit_blocks ctx auth s c s1 :
  Token.reachable ctx auth s -> Token.pc s = Returned ->
  Token.step s (Token.GetBegin c) = Some s1 ->
  forall tr s2, Token.run s1 tr = Some s2 ->
    In c (Token.receivers s2) /\
    (forall c', Token.step s2 (Token.CaseSend c') = None) /\
    Token.readlog s2 = Token.readlog s /\
    (forall rd, In rd (Token.readlog s2) -> fetched (Token.fetchlog s2) rd).
Proof.
  intros Hr Hp Hb tr s2 Hrun.
  destruct (Token_returned_step _ _ _ Hp Hb) as [Hp1 [_ [_ [_ [Hl1 [_ Hin]]]]]].
  destruct (Token_returned_run _ _ _ Hp1 Hrun) as [Hp2 [_ [_ [_ [Hl2 Hq]]]]].
  repeat split.
  - apply Hq, (Hin c eq_refl).
  - intros c'. unfold Token.step. now rewrite Hp2.
  - congruence.
  - intros rd Hrd.
    assert (Hr2 : Token.reachable ctx auth s2).
    { eapply Token_reachable_run; [|exact Hrun].
      eapply Token_reachable_step; eauto. }
    destruct (TInv_reachable _ _ _ Hr2) as [_ _ _ _ _ _ Hreads].
    rewrite Forall_forall in Hreads.
    destruct (Hreads rd Hrd) as [_ [f [Hf [He [Hd _]]]]].
    exists f. auto.
Qed.

(** Client 1 is served, the context is cancelled, the loop returns, and
    client 2 enters [Get]: one second later it is still waiting. *)
Lemma C10_get_after_exit_blocks_witness :
  exists s s1 s2,
    Token.run (Token.NewToken false tokAB)
      [Token.CallInitial; Token.AuthorizeReturns; Token.GetBegin 1;
       Token.CaseSend 1; Token.Cancel; Token.CaseDone] = Some s /\
    Token.step s (Token.GetBegin 2) = Some s1 /\
    Token.run s1 [Token.Tick (1000 * Millisecond)] = Some s2 /\
    In 2%nat (Token.receivers s2) /\
    Token.step s2 (Token.CaseSend 2) = None /\
    Token.readlog s2 = Token.readlog s.
Proof.
  eexists. eexists. eexists.
  split; [vm_compute; reflexivity|].
  split; [vm_compute; reflexivity|].
  split; [vm_compute; reflexivity|].
  match goal with
  | |- In _ (Token.receivers ?s2) /\ _ /\ _ = Token.readlog ?s =>
      assert (Hreach : Token.reachable false tokAB s)
        by (exists [Token.CallInitial; Token.AuthorizeReturns; Token.GetBegin 1;
                    Token.CaseSend 1; Token.Cancel; Token.CaseDone];
            vm_compute; reflexivity);
      destruct (C10_get_after_exit_blocks false tokAB s 2%nat _
                  Hreach eq_refl eq_refl
                  [Token.Tick (1000 * Millisecond)] s2 eq_refl)
        as [H1 [H2 [H3 _]]]
  end.
  split; [exact H1|]. split; [apply H2 | exact H3].
Defined.

(** * Further properties of the code *)

(** ** Clients of the channel-based cell *)

Lemma parked_unpark c l : parked c (unpark c l) = false.
Proof.
  destruct (parked c (unpark c l)) eqn:E; [|reflexivity].
  apply parked_In in E. unfold unpark in E. apply filter_In in E.
  destruct E as [_ E]. rewrite Nat.eqb_refl in E. discriminate.
Qed.

Lemma parked_unpark_other c c' l :
  c <> c' -> parked c (unpark c' l) = parked c l.
Proof.
  intros Hne. destruct (parked c l) eqn:E.
  - apply parked_In. apply parked_In in E. unfold unpark. apply filter_In.
    split; [exact E|]. apply negb_true_iff. apply Nat.eqb_neq. congruence.
  - destruct (parked c (unpark c' l)) eqn:E'; [|reflexivity].
    apply parked_In in E'. unfold unpark in E'. apply filter_In in E'.
    destruct E' as [E' _]. apply parked_In in E'. congruence.
Qed.

Lemma parked_cons c c' l :
  parked c (c' :: l) = Nat.eqb c c' || parked c l.
Proof. reflexivity. Qed.

(** One step keeps the account of client [c]: its answered reads plus its
    pending one, against the [Get]s it began. *)
Lemma Token_account_step c s e s' :
  Token.step s e = Some s' ->
  (reads_of c (Token.readlog s') + parked_count c (Token.receivers s'))%nat =
  (reads_of c (Token.readlog s) + parked_count c (Token.receivers s)
   + gets_begun c [e])%nat.
Proof.
  intros H. unfold parked_count, reads_of, gets_begun.
  token_step H; simpl; try lia.
  - (* GetBegin c0 *)
    destruct (Nat.eqb c c0) eqn:E; simpl.
    + apply Nat.eqb_eq in E. subst c0. rewrite Heqb. simpl. lia.
    + lia.
  - (* CaseSend c0 *)
    destruct (Nat.eqb c c0) eqn:E; simpl.
    + apply Nat.eqb_eq in E. subst c0. rewrite parked_unpark, Heqb. simpl. lia.
    + apply Nat.eqb_neq in E. rewrite parked_unpark_other by exact E. lia.
Qed.

(** X1 (every [Get] is answered once).  Along every schedule of a [Token]
    and for every client, the reads the client has completed plus the one
    it is waiting for, if any, are as many as the calls of [Get] it began:
    the loop hands a slot only to a client that asked, and never twice for
    one call. *)
Theorem X1_Token_get_answered_once ctx auth tr s c :
  Token.run (Token.NewToken ctx auth) tr = Some s ->
  (reads_of c (Token.readlog s) + parked_count c (Token.receivers s))%nat
  = gets_begun c tr.
Proof.
  assert (G : forall tr s0 s,
             Token.run s0 tr = Some s ->
             (reads_of c (Token.readlog s)
              + parked_count c (Token.receivers s))%nat
             = (reads_of c (Token.readlog s0)
                + parked_count c (Token.receivers s0) + gets_begun c tr)%nat).
  { clear. induction tr as [|e tr IH]; simpl; intros s0 s H.
    - injection H as <-. unfold gets_begun. simpl. lia.
    - destruct (Token.step s0 e) as [s1|] eqn:He; [|discriminate].
      rewrite (IH _ _ H), (Token_account_step c _ _ _ He).
      unfold gets_begun. simpl.
      destruct e; simpl; try lia. destruct (Nat.eqb c c0); simpl; lia. }
  intros H. rewrite (G _ _ _ H). reflexivity.
Qed.

(** Client 1 calls [Get] twice and client 2 once; client 2 is still
    waiting when the loop is inside the second Authorizer call. *)
Lemma X1_Token_get_answered_once_witness :
  exists s,
    Token.run (Token.NewToken false tokAB)
      [Token.GetBegin 1; Token.CallInitial; Token.AuthorizeReturns;
       Token.CaseSend 1; Token.GetBegin 1; Token.CaseSend 1;
       Token.Tick (90 * Millisecond); Token.CaseExpired; Token.GetBegin 2]
    = Some s /\
    (reads_of 1 (Token.readlog s) + parked_count 1 (Token.receivers s))%nat
    = 2%nat /\
    (reads_of 2 (Token.readlog s) + parked_count 2 (Token.receivers s))%nat
    = 1%nat /\
    reads_of 2 (Token.readlog s) = 0%nat.
Proof.
  eassert (E : Token.run (Token.NewToken false tokAB)
                 [Token.GetBegin 1; Token.CallInitial; Token.AuthorizeReturns;
                  Token.CaseSend 1; Token.GetBegin 1; Token.CaseSend 1;
                  Token.Tick (90 * Millisecond); Token.CaseExpired;
                  Token.GetBegin 2] = Some _) by (vm_compute; reflexivity).
  pose proof (X1_Token_get_answered_once _ _ _ _ 1%nat E) as H1.
  pose proof (X1_Token_get_answered_once _ _ _ _ 2%nat E) as H2.
  eexists. split; [exact E|]. split; [exact H1|]. split; [exact H2|].
  reflexivity.
Defined.

(** ** Reads of the mutex-based cell *)

(** While client [c] holds the read lock, the goroutine cannot obtain the
    write lock: no call of the Authorizer starts or returns, and the fields
    keep their values. *)
Lemma MToken_hold_step c s e s' :
  MToken.pc s <> InAuthorize -> In c (MToken.readers s) ->
  returns_of c e = false -> MToken.step s e = Some s' ->
  MToken.pc s' <> InAuthorize /\ In c (MToken.readers s') /\
  MToken.token s' = MToken.token s /\ MToken.tokenErr s' = MToken.tokenErr s /\
  MToken.expired s' = MToken.expired s /\
  MToken.fetchlog s' = MToken.fetchlog s /\ MToken.calls s' = MToken.calls s.
Proof.
  intros Hp Hc Hq H. apply parked_In in Hc.
  mtoken_step H; simpl in *; repeat split; auto; try congruence;
    try (now apply parked_In); try (right; now apply parked_In).
  - (* another client returns *)
    apply parked_In. rewrite parked_unpark_other; [exact Hc|].
    intros E. subst c0. rewrite Nat.eqb_refl in Hq. discriminate.
Qed.

Lemma MToken_hold_run c tr : forall s s',
  MToken.pc s <> InAuthorize -> In c (MToken.readers s) ->
  forallb (fun e => negb (returns_of c e)) tr = true ->
  MToken.run s tr = Some s' ->
  MToken.pc s' <> InAuthorize /\ In c (MToken.readers s') /\
  MToken.token s' = MToken.token s /\ MToken.tokenErr s' = MToken.tokenErr s /\
  MToken.expired s' = MToken.expired s /\
  MToken.fetchlog s' = MToken.fetchlog s /\ MToken.calls s' = MToken.calls s.
Proof.
  induction tr as [|e tr IH]; simpl; intros s s' Hp Hc Hq H.
  - injection H as <-. repeat split; auto.
  - destruct (MToken.step s e) as [s1|] eqn:He; [|discriminate].
    apply andb_prop in Hq. destruct Hq as [Hq1 Hq2].
    apply negb_true_iff in Hq1.
    destruct (MToken_hold_step _ _ _ _ Hp Hc Hq1 He)
      as [Hp1 [Hc1 [Ht1 [He1 [Hx1 [Hf1 Hk1]]]]]].
    destruct (IH _ _ Hp1 Hc1 Hq2 H) as [Hp2 [Hc2 [Ht2 [He2 [Hx2 [Hf2 Hk2]]]]]].
    repeat split; auto; congruence.
Qed.

(** X2 (a read under the read lock).  Let client [c] obtain the read lock
    of an [MToken] and return from that [Get] later.  Whatever happens in
    between, no Authorizer call completes, and [Get] returns the fields as
    they were when the lock was obtained: token and error of the newest
    completed call of the stored Authorizer, never the token of one call
    with the error of another; or the unset fields, if no call had
    completed. *)
Theorem X2_MToken_read_under_lock authFunc ctx auth tr1 s1 c s2 tr2 s3 s4 :
  MToken.run (MToken.NewMToken authFunc ctx auth) tr1 = Some s1 ->
  MToken.step s1 (MToken.RLock c) = Some s2 ->
  forallb (fun e => negb (returns_of c e)) tr2 = true ->
  MToken.run s2 tr2 = Some s3 ->
  MToken.step s3 (MToken.GetReturns c) = Some s4 ->
  MToken.fetchlog s3 = MToken.fetchlog s1 /\
  MToken.readlog s4 =
    mkRead c (MToken.now s3) (mkResp (MToken.token s1) (MToken.tokenErr s1))
      (MToken.expired s1) :: MToken.readlog s3 /\
  match MToken.fetchlog s1 with
  | [] => MToken.token s1 = EmptyString /\ MToken.tokenErr s1 = None
  | g :: _ =>
      mkResp (MToken.token s1) (MToken.tokenErr s1) = f_resp g /\
      authFunc (f_index g) = (f_token g, f_validFor g, f_err g)
  end.
Proof.
  intros H1 Hl Hq H2 Hg.
  pose proof (MInv_reachable _ _ _ _ (ex_intro _ tr1 H1)) as Hinv.
  destruct Hinv as [_ _ _ Hw _ _ Hs Hlog _].
  assert (Hs2 : MToken.pc s2 <> InAuthorize /\ In c (MToken.readers s2) /\
                MToken.token s2 = MToken.token s1 /\
                MToken.tokenErr s2 = MToken.tokenErr s1 /\
                MToken.expired s2 = MToken.expired s1 /\
                MToken.fetchlog s2 = MToken.fetchlog s1).
  { unfold MToken.step in Hl.
    destruct (MToken.writer s1) eqn:Ew; [discriminate|].
    destruct (pc_eqb (MToken.pc s1) WantLock); [discriminate|].
    destruct (parked c (MToken.readers s1)); [discriminate|].
    injection Hl as <-. simpl. repeat split; auto.
    intros E. rewrite E in Hw. discriminate. }
  destruct Hs2 as [Hp2 [Hc2 [Ht2 [He2 [Hx2 Hf2]]]]].
  destruct (MToken_hold_run _ _ _ _ Hp2 Hc2 Hq H2)
    as [_ [Hc3 [Ht3 [He3 [Hx3 [Hf3 _]]]]]].
  split; [congruence|]. split.
  - unfold MToken.step in Hg. apply parked_In in Hc3. rewrite Hc3 in Hg.
    injection Hg as <-. simpl.
    rewrite Ht3, He3, Hx3, Ht2, He2, Hx2. reflexivity.
  - destruct (MToken.fetchlog s1) as [|g rest].
    + tauto.
    + destruct Hs as [Ht [He _]]. destruct Hlog as [_ [Ha _]].
      split; [unfold f_resp; now rewrite Ht, He | exact Ha].
Qed.

(** Client 1 obtains the read lock at 89ms and returns at 95ms, after the
    timer has fired and the goroutine has asked for the write lock: it
    returns "tok-A", and no second call has been made. *)
Lemma X2_MToken_read_under_lock_witness :
  exists s1 s2 s3 s4,
    MToken.run (MToken.NewMToken tokAB false tokAB)
      [MToken.LockInitial; MToken.LockAcquired; MToken.AuthorizeReturns;
       MToken.Tick (89 * Millisecond)] = Some s1 /\
    MToken.step s1 (MToken.RLock 1) = Some s2 /\
    MToken.run s2 [MToken.Tick (1 * Millisecond); MToken.CaseExpired;
                   MToken.Tick (5 * Millisecond)] = Some s3 /\
    MToken.step s3 (MToken.GetReturns 1) = Some s4 /\
    MToken.step s3 MToken.LockAcquired = None /\
    MToken.readlog s4 =
      [mkRead 1 (95 * Millisecond) (mkResp "tok-A"%string None)
         (Some (90 * Millisecond))].
Proof.
  eassert (E1 : MToken.run (MToken.NewMToken tokAB false tokAB)
                  [MToken.LockInitial; MToken.LockAcquired;
                   MToken.AuthorizeReturns; MToken.Tick (89 * Millisecond)]
                = Some _) by (vm_compute; reflexivity).
  match type of E1 with
  | _ = Some ?s1 =>
      eassert (E2 : MToken.step s1 (MToken.RLock 1) = Some _)
        by (vm_compute; reflexivity)
  end.
  match type of E2 with
  | _ = Some ?s2 =>
      eassert (E3 : MToken.run s2 [MToken.Tick (1 * Millisecond);
                                   MToken.CaseExpired;
                                   MToken.Tick (5 * Millisecond)] = Some _)
        by (vm_compute; reflexivity)
  end.
  match type of E3 with
  | _ = Some ?s3 =>
      eassert (E4 : MToken.step s3 (MToken.GetReturns 1) = Some _)
        by (vm_compute; reflexivity)
  end.
  destruct (X2_MToken_read_under_lock _ _ _ _ _ _ _
              [MToken.Tick (1 * Millisecond); MToken.CaseExpired;
               MToken.Tick (5 * Millisecond)] _ _ E1 E2 eq_refl E3 E4)
    as [_ [Hrd _]].
  do 4 eexists. split; [exact E1|]. split; [exact E2|]. split; [exact E3|].
  split; [exact E4|]. split; [reflexivity|]. rewrite Hrd. reflexivity.
Defined.

(** Once the goroutine of an [MToken] has returned, the fields, the timer
    value and the lock's write side stay as they are. *)
Lemma MToken_after_exit_run tr : forall s s',
  MToken.pc s = Returned -> MToken.run s tr = Some s' ->
  MToken.pc s' = Returned /\ MToken.writer s' = MToken.writer s /\
  MToken.token s' = MToken.token s /\ MToken.tokenErr s' = MToken.tokenErr s /\
  MToken.expired s' = MToken.expired s /\ MToken.calls s' = MToken.calls s /\
  MToken.now s <= MToken.now s'.
Proof.
  induction tr as [|e tr IH]; simpl; intros s s' Hp H.
  - injection H as <-. repeat split; auto. lia.
  - destruct (MToken.step s e) as [s1|] eqn:He; [|discriminate].
    assert (H1 : MToken.pc s1 = Returned /\ MToken.writer s1 = MToken.writer s /\
                 MToken.token s1 = MToken.token s /\
                 MToken.tokenErr s1 = MToken.tokenErr s /\
                 MToken.expired s1 = MToken.expired s /\
                 MToken.calls s1 = MToken.calls s /\
                 MToken.now s <= MToken.now s1).
    { clear - Hp He. unfold MToken.step in He. rewrite Hp in He.
      destruct e; simpl in *; try discriminate;
        repeat match type of He with
          | context [if ?b then _ else _] => destruct b eqn:?
          end; try discriminate; injection He as <-; simpl;
        repeat split; auto; lia. }
    destruct H1 as [Hp1 [Hw1 [Ht1 [He1 [Hx1 [Hc1 Hn1]]]]]].
    destruct (IH _ _ Hp1 H) as [Hp2 [Hw2 [Ht2 [He2 [Hx2 [Hc2 Hn2]]]]]].
    repeat split; auto; try congruence. lia.
Qed.

(** X3 ([MToken.Get] after the loop has exited).  When the goroutine of an
    [MToken] has returned, [Get] does not block: at any later instant a
    client obtains the read lock and returns.  What it returns is the
    result of the last call made before the exit, however much time has
    passed since; the Authorizer is not called again. *)
Theorem X3_MToken_get_after_exit authFunc ctx auth s tr s' c :
  MToken.reachable authFunc ctx auth s -> MToken.pc s = Returned ->
  MToken.run s tr = Some s' -> ~ In c (MToken.readers s') ->
  exists s1 s2 g,
    MToken.step s' (MToken.RLock c) = Some s1 /\
    MToken.step s1 (MToken.GetReturns c) = Some s2 /\
    hd_error (MToken.fetchlog s) = Some g /\
    MToken.readlog s2 =
      mkRead c (MToken.now s') (f_resp g) (Some (armed g))
        :: MToken.readlog s' /\
    MToken.calls s2 = MToken.calls s /\
    MToken.now s <= MToken.now s'.
Proof.
  intros Hr Hp Hrun Hc.
  destruct (MInv_reachable _ _ _ _ Hr) as [_ _ _ Hw _ Hpc Hs _ _].
  rewrite Hp in Hw, Hpc. simpl in Hw.
  destruct (MToken_after_exit_run _ _ _ Hp Hrun)
    as [Hp' [Hw' [Ht' [He' [Hx' [Hc' Hn']]]]]].
  assert (Hnp : parked c (MToken.readers s') = false).
  { destruct (parked c (MToken.readers s')) eqn:E; [|reflexivity].
    apply parked_In in E. contradiction. }
  destruct (MToken.fetchlog s) as [|g rest]; [congruence|].
  destruct Hs as [Ht [He [_ [Hx _]]]].
  unfold MToken.step at 1. rewrite Hw', Hw, Hp', Hnp. simpl.
  eexists. eexists. exists g. split; [reflexivity|].
  unfold MToken.step. simpl. rewrite Nat.eqb_refl. simpl.
  split; [reflexivity|]. split; [reflexivity|].
  split; [|split; [exact Hc' | exact Hn']].
  unfold f_resp. rewrite <- Ht, <- He, <- Hx, Ht', He', Hx'. reflexivity.
Qed.

(** "tok-A" is fetched for 100ms, the context is cancelled and the loop
    returns.  One second later a client still reads "tok-A". *)
Lemma X3_MToken_get_after_exit_witness :
  exists s s' s1 s2,
    MToken.run (MToken.NewMToken tokAB false tokAB)
      [MToken.LockInitial; MToken.LockAcquired; MToken.AuthorizeReturns;
       MToken.Cancel; MToken.CaseDone] = Some s /\
    MToken.run s [MToken.Tick (1000 * Millisecond)] = Some s' /\
    MToken.step s' (MToken.RLock 1) = Some s1 /\
    MToken.step s1 (MToken.GetReturns 1) = Some s2 /\
    MToken.readlog s2 =
      [mkRead 1 (1000 * Millisecond) (mkResp "tok-A"%string None)
         (Some (90 * Millisecond))] /\
    MToken.calls s2 = 1%nat.
Proof.
  eassert (E1 : MToken.run (MToken.NewMToken tokAB false tokAB)
                  [MToken.LockInitial; MToken.LockAcquired;
                   MToken.AuthorizeReturns; MToken.Cancel; MToken.CaseDone]
                = Some _) by (vm_compute; reflexivity).
  match type of E1 with
  | _ = Some ?s =>
      eassert (E2 : MToken.run s [MToken.Tick (1000 * Millisecond)] = Some _)
        by (vm_compute; reflexivity)
  end.
  destruct (X3_MToken_get_after_exit _ _ _ _ _ _ 1%nat
              (ex_intro _ _ E1) eq_refl E2)
    as [s1 [s2 [g [E3 [E4 [Hg [Hrd [Hc _]]]]]]]].
  { simpl. tauto. }
  do 2 eexists. exists s1, s2. split; [exact E1|]. split; [exact E2|].
  split; [exact E3|]. split; [exact E4|]. split; [|exact Hc].
  rewrite Hrd. injection Hg as <-. reflexivity.
Defined.

(** ** The first fetch *)

(** X4 (no exit before the first fetch).  In either cell the goroutine
    calls the Authorizer before it looks at the context: also when the
    context is cancelled before the cell is constructed, the goroutine has
    returned only after at least one call has been made and has returned,
    and no call is then in flight. *)
Theorem X4_exit_after_first_fetch :
  (forall ctx auth s,
     Token.reachable ctx auth s -> Token.pc s = Returned ->
     (1 <= Token.calls s)%nat /\
     length (Token.fetchlog s) = Token.calls s) /\
  (forall authFunc ctx auth s,
     MToken.reachable authFunc ctx auth s -> MToken.pc s = Returned ->
     (1 <= MToken.calls s)%nat /\
     length (MToken.fetchlog s) = MToken.calls s).
Proof.
  split.
  - intros ctx auth s Hr Hp.
    destruct (TInv_reachable _ _ _ Hr) as [_ Hf Hc Hpc Hs _ _].
    rewrite Hp in Hf, Hpc. unfold flight_of in Hf. simpl in Hf.
    destruct (Token.fetchlog s) as [|g rest]; [congruence|].
    simpl in *. split; lia.
  - intros authFunc ctx auth s Hr Hp.
    destruct (MInv_reachable _ _ _ _ Hr) as [_ Hf Hc _ _ Hpc Hs _ _].
    rewrite Hp in Hf, Hpc. unfold flight_of in Hf. simpl in Hf.
    destruct (MToken.fetchlog s) as [|g rest]; [congruence|].
    simpl in *. split; lia.
Qed.

(** Both cells are constructed with a cancelled context; the shortest
    schedule that ends the goroutine contains one call. *)
Lemma X4_exit_after_first_fetch_witness :
  (exists s,
     Token.run (Token.NewToken true tokAB)
       [Token.CallInitial; Token.AuthorizeReturns; Token.CaseDone] = Some s /\
     Token.step (Token.NewToken true tokAB) Token.CaseDone = None /\
     Token.calls s = 1%nat) /\
  (exists s,
     MToken.run (MToken.NewMToken tokAB true tokAB)
       [MToken.LockInitial; MToken.LockAcquired; MToken.AuthorizeReturns;
        MToken.CaseDone] = Some s /\
     MToken.step (MToken.NewMToken tokAB true tokAB) MToken.CaseDone = None /\
     MToken.calls s = 1%nat).
Proof.
  split.
  - eassert (E : Token.run (Token.NewToken true tokAB)
                   [Token.CallInitial; Token.AuthorizeReturns; Token.CaseDone]
                 = Some _) by (vm_compute; reflexivity).
    destruct (proj1 X4_exit_after_first_fetch _ _ _ (ex_intro _ _ E) eq_refl)
      as [_ Hl].
    eexists. split; [exact E|]. split; [reflexivity|]. rewrite <- Hl.
    reflexivity.
  - eassert (E : MToken.run (MToken.NewMToken tokAB true tokAB)
                   [MToken.LockInitial; MToken.LockAcquired;
                    MToken.AuthorizeReturns; MToken.CaseDone]
                 = Some _) by (vm_compute; reflexivity).
    destruct (proj2 X4_exit_after_first_fetch _ _ _ _ (ex_intro _ _ E) eq_refl)
      as [_ Hl].
    eexists. split; [exact E|]. split; [reflexivity|]. rewrite <- Hl.
    reflexivity.
Defined.

(** ** The distance between fetches *)

(** The timer of a fetch whose lifespan is at least [margin + q] does not
    fire earlier than [q] after the fetch. *)
Lemma armed_floor auth l f q :
  log_ok auth l -> In f l ->
  (forall k, lifeSpanSafetyMargin + q <= snd (fst (auth k)) <= max_int64) ->
  0 <= q -> f_done f + q <= armed f.
Proof.
  intros Hl Hin Ha Hq. destruct (log_ok_In _ _ _ Hl Hin) as [_ Hf].
  specialize (Ha (f_index f)). rewrite Hf in Ha. cbn [fst snd] in Ha.
  unfold armed, timer_arg. rewrite sub64_margin_safe.
  - unfold After. lia.
  - unfold min_int64, lifeSpanSafetyMargin, Millisecond in *. lia.
Qed.

Lemma Token_spacing_step auth q s e s' :
  (forall k, lifeSpanSafetyMargin + q <= snd (fst (auth k)) <= max_int64) ->
  0 <= q -> TInv auth s -> Token.step s e = Some s' ->
  spaced q (Token.fetchlog s) /\
  (Token.pc s = InAuthorize ->
   forall f rest, Token.fetchlog s = f :: rest -> f_done f + q <= Token.now s) ->
  spaced q (Token.fetchlog s') /\
  (Token.pc s' = InAuthorize ->
   forall f rest, Token.fetchlog s' = f :: rest -> f_done f + q <= Token.now s').
Proof.
  intros Ha Hq [_ Hf Hc Hp Hs Hl _] H [Hsp Hin].
  token_step H; simpl; (split; [try exact Hsp | try discriminate]);
    try (intros Hpc f rest E; specialize (Hin Hpc f rest E)); try lia;
    try exact Hin.
  - (* CallInitial: no fetch yet *)
    intros _ f rest E. rewrite Hp in Hc.
    rewrite E in Hc. simpl in Hc. lia.
  - (* AuthorizeReturns: the new fetch against the previous one *)
    split; [|exact Hsp].
    destruct (Token.fetchlog s) as [|f rest] eqn:E; [exact I|].
    simpl. exact (Hin eq_refl f rest eq_refl).
  - (* CaseExpired: the timer of the newest fetch has fired *)
    intros _ f rest E. rewrite E in Hs, Hl.
    destruct Hs as [_ [_ [_ [Hx _]]]]. rewrite Hx in Heqb. unfold fired in Heqb.
    apply Z.leb_le in Heqb.
    pose proof (armed_floor auth (f :: rest) f q Hl (or_introl eq_refl) Ha Hq).
    lia.
Qed.

Lemma MToken_spacing_step authFunc q s e s' :
  (forall k, lifeSpanSafetyMargin + q <= snd (fst (authFunc k)) <= max_int64) ->
  0 <= q -> MInv authFunc s -> MToken.step s e = Some s' ->
  spaced q (MToken.fetchlog s) /\
  (MToken.pc s = InAuthorize \/ MToken.pc s = WantLock ->
   forall f rest, MToken.fetchlog s = f :: rest ->
                  f_done f + q <= MToken.now s) ->
  spaced q (MToken.fetchlog s') /\
  (MToken.pc s' = InAuthorize \/ MToken.pc s' = WantLock ->
   forall f rest, MToken.fetchlog s' = f :: rest ->
                  f_done f + q <= MToken.now s').
Proof.
  intros Ha Hq [_ Hf Hc _ _ Hp Hs Hl _] H [Hsp Hin].
  mtoken_step H; simpl; (split; [try exact Hsp | ]);
    try (intros Hpc f rest E; specialize (Hin Hpc f rest E); try lia;
         exact Hin);
    try (intros [Hpc|Hpc]; discriminate).
  - (* LockInitial: no fetch yet *)
    intros _ f rest E. rewrite Hp in Hc.
    rewrite E in Hc. simpl in Hc. lia.
  - (* LockAcquired *)
    intros _ f rest E. apply (Hin (or_intror eq_refl) f rest E).
  - (* AuthorizeReturns *)
    split; [|exact Hsp].
    destruct (MToken.fetchlog s) as [|f rest] eqn:E; [exact I|].
    simpl. exact (Hin (or_introl eq_refl) f rest eq_refl).
  - (* CaseExpired *)
    intros _ f rest E. rewrite E in Hs, Hl.
    destruct Hs as [_ [_ [_ [Hx _]]]]. rewrite Hx in Heqb. unfold fired in Heqb.
    apply Z.leb_le in Heqb.
    pose proof (armed_floor authFunc (f :: rest) f q Hl (or_introl eq_refl) Ha Hq).
    lia.
Qed.

Lemma Token_spacing_run auth q tr : forall s s',
  (forall k, lifeSpanSafetyMargin + q <= snd (fst (auth k)) <= max_int64) ->
  0 <= q -> TInv auth s -> Token.run s tr = Some s' ->
  spaced q (Token.fetchlog s) /\
  (Token.pc s = InAuthorize ->
   forall f rest, Token.fetchlog s = f :: rest -> f_done f + q <= Token.now s) ->
  spaced q (Token.fetchlog s') /\
  (Token.pc s' = InAuthorize ->
   forall f rest, Token.fetchlog s' = f :: rest -> f_done f + q <= Token.now s').
Proof.
  induction tr as [|e tr IH]; intros s s' Ha Hq Hi H HP; cbn [Token.run] in H.
  - injection H as <-. exact HP.
  - destruct (Token.step s e) as [s1|] eqn:He; [|discriminate].
    apply (IH s1 s' Ha Hq (TInv_step _ _ _ _ Hi He) H).
    exact (Token_spacing_step _ _ _ _ _ Ha Hq Hi He HP).
Qed.

Lemma MToken_spacing_run authFunc q tr : forall s s',
  (forall k, lifeSpanSafetyMargin + q <= snd (fst (authFunc k)) <= max_int64) ->
  0 <= q -> MInv authFunc s -> MToken.run s tr = Some s' ->
  spaced q (MToken.fetchlog s) /\
  (MToken.pc s = InAuthorize \/ MToken.pc s = WantLock ->
   forall f rest, MToken.fetchlog s = f :: rest ->
                  f_done f + q <= MToken.now s) ->
  spaced q (MToken.fetchlog s') /\
  (MToken.pc s' = InAuthorize \/ MToken.pc s' = WantLock ->
   forall f rest, MToken.fetchlog s' = f :: rest ->
                  f_done f + q <= MToken.now s').
Proof.
  induction tr as [|e tr IH]; intros s s' Ha Hq Hi H HP; cbn [MToken.run] in H.
  - injection H as <-. exact HP.
  - destruct (MToken.step s e) as [s1|] eqn:He; [|discriminate].
    apply (IH s1 s' Ha Hq (MInv_step _ _ _ _ Hi He) H).
    exact (MToken_spacing_step _ _ _ _ _ Ha Hq Hi He HP).
Qed.

(** X5 (distance between fetches).  Let every lifespan the Authorizer
    returns be an [int64] value of at least [L], with [L] no less than the
    safety margin.  Then, in either cell, successive fetches complete at
    least [L - lifeSpanSafetyMargin] apart, and while a call is in flight
    at least that much time has passed since the previous fetch completed:
    the loop never calls the Authorizer earlier. *)
Theorem X5_refresh_spacing :
  (forall ctx auth L s,
     (forall k, L <= snd (fst (auth k)) <= max_int64) ->
     lifeSpanSafetyMargin <= L ->
     Token.reachable ctx auth s ->
     spaced (L - lifeSpanSafetyMargin) (Token.fetchlog s) /\
     (Token.in_flight s = 1%nat ->
      forall f, hd_error (Token.fetchlog s) = Some f ->
                f_done f + (L - lifeSpanSafetyMargin) <= Token.now s)) /\
  (forall authFunc ctx auth L s,
     (forall k, L <= snd (fst (authFunc k)) <= max_int64) ->
     lifeSpanSafetyMargin <= L ->
     MToken.reachable authFunc ctx auth s ->
     spaced (L - lifeSpanSafetyMargin) (MToken.fetchlog s) /\
     (MToken.in_flight s = 1%nat ->
      forall f, hd_error (MToken.fetchlog s) = Some f ->
                f_done f + (L - lifeSpanSafetyMargin) <= MToken.now s)).
Proof.
  split.
  - intros ctx auth L s Ha HL [tr Hrun].
    assert (Ha' : forall k, lifeSpanSafetyMargin + (L - lifeSpanSafetyMargin)
                            <= snd (fst (auth k)) <= max_int64).
    { intros k. specialize (Ha k). lia. }
    destruct (Token_spacing_run auth (L - lifeSpanSafetyMargin) tr _ _ Ha'
                ltac:(lia) (TInv_init auth ctx) Hrun) as [Hsp Hin].
    { split; [exact I|]. intros _ f rest E. discriminate. }
    split; [exact Hsp|]. intros Hfl f Hf.
    pose proof (TInv_run _ _ _ _ (TInv_init auth ctx) Hrun) as [_ Hfo _ _ _ _ _].
    rewrite Hfo in Hfl. apply flight_one in Hfl.
    destruct (Token.fetchlog s) as [|g rest] eqn:E; [discriminate|].
    injection Hf as <-. exact (Hin Hfl g rest eq_refl).
  - intros authFunc ctx auth L s Ha HL [tr Hrun].
    assert (Ha' : forall k, lifeSpanSafetyMargin + (L - lifeSpanSafetyMargin)
                            <= snd (fst (authFunc k)) <= max_int64).
    { intros k. specialize (Ha k). lia. }
    destruct (MToken_spacing_run authFunc (L - lifeSpanSafetyMargin) tr _ _ Ha'
                ltac:(lia) (MInv_init authFunc ctx auth) Hrun) as [Hsp Hin].
    { split; [exact I|]. intros _ f rest E. discriminate. }
    split; [exact Hsp|]. intros Hfl f Hf.
    pose proof (MInv_run _ _ _ _ (MInv_init authFunc ctx auth) Hrun)
      as [_ Hfo _ _ _ _ _ _ _].
    rewrite Hfo in Hfl. apply flight_one in Hfl.
    destruct (MToken.fetchlog s) as [|g rest] eqn:E; [discriminate|].
    injection Hf as <-. exact (Hin (or_introl Hfl) g rest eq_refl).
Qed.

Lemma tokAB_lifespan k : 100 * Millisecond <= snd (fst (tokAB k)) <= max_int64.
Proof. destruct k; vm_compute; split; discriminate. Qed.

(** With lifespans of 100ms, the second fetch completes 92ms after the
    first; the theorem says: no less than 90ms. *)
Lemma X5_refresh_spacing_witness :
  (exists s,
     Token.run (Token.NewToken false tokAB)
       [Token.CallInitial; Token.AuthorizeReturns; Token.Tick (90 * Millisecond);
        Token.CaseExpired; Token.Tick (2 * Millisecond); Token.AuthorizeReturns]
     = Some s /\
     map f_done (Token.fetchlog s) = [92 * Millisecond; 0] /\
     spaced (90 * Millisecond) (Token.fetchlog s)) /\
  (exists s,
     MToken.run (MToken.NewMToken tokAB false tokAB)
       [MToken.LockInitial; MToken.LockAcquired; MToken.AuthorizeReturns;
        MToken.Tick (90 * Millisecond); MToken.CaseExpired; MToken.LockAcquired;
        MToken.Tick (2 * Millisecond); MToken.AuthorizeReturns]
     = Some s /\
     map f_done (MToken.fetchlog s) = [92 * Millisecond; 0] /\
     spaced (90 * Millisecond) (MToken.fetchlog s)).
Proof.
  split.
  - eassert (E : Token.run (Token.NewToken false tokAB)
                   [Token.CallInitial; Token.AuthorizeReturns;
                    Token.Tick (90 * Millisecond); Token.CaseExpired;
                    Token.Tick (2 * Millisecond); Token.AuthorizeReturns]
                 = Some _) by (vm_compute; reflexivity).
    eexists. split; [exact E|]. split; [reflexivity|].
    refine (proj1 (proj1 X5_refresh_spacing false tokAB (100 * Millisecond) _
                     tokAB_lifespan _ (ex_intro _ _ E))).
    vm_compute. discriminate.
  - eassert (E : MToken.run (MToken.NewMToken tokAB false tokAB)
                   [MToken.LockInitial; MToken.LockAcquired;
                    MToken.AuthorizeReturns; MToken.Tick (90 * Millisecond);
                    MToken.CaseExpired; MToken.LockAcquired;
                    MToken.Tick (2 * Millisecond); MToken.AuthorizeReturns]
                 = Some _) by (vm_compute; reflexivity).
    eexists. split; [exact E|]. split; [reflexivity|].
    refine (proj1 (proj2 X5_refresh_spacing tokAB false tokAB
                     (100 * Millisecond) _ tokAB_lifespan _ (ex_intro _ _ E))).
    vm_compute. discriminate.
Defined.

(** ** Progress of a waiting client *)

(** X6 (a waiting client of a [Token] can be served).  As long as the
    goroutine has not returned, a client that waits in [Get] is at most one
    return of the Authorizer away from its answer: the loop has no program
    point from which the send case cannot be reached.  The answer is the
    slot of the newest fetch, and the client has then left the channel. *)
Theorem X6_Token_waiting_client_served ctx auth s c :
  Token.reachable ctx auth s -> In c (Token.receivers s) ->
  Token.pc s <> Returned ->
  exists s' g,
    Token.run s (serve_schedule (Token.pc s) c) = Some s' /\
    hd_error (Token.fetchlog s') = Some g /\
    hd_error (Token.readlog s') =
      Some (mkRead c (Token.now s) (f_resp g) (Some (armed g))) /\
    ~ In c (Token.receivers s') /\
    (length (Token.fetchlog s') <= S (length (Token.fetchlog s)))%nat.
Proof.
  intros Hr Hc Hp. pose proof (TInv_reachable _ _ _ Hr) as Hinv.
  destruct Hinv as [_ _ _ Hpc Hs _ _]. apply parked_In in Hc.
  assert (Hout : forall l, ~ In c (unpark c l)).
  { intros l Hin. apply parked_In in Hin. rewrite parked_unpark in Hin.
    discriminate. }
  destruct (Token.pc s) eqn:E; try contradiction; try congruence;
    unfold serve_schedule; cbn [Token.run].
  - (* AtStart *)
    unfold Token.step at 1. rewrite E.
    unfold Token.step at 1. cbn [Token.pc Token.authorize Token.calls].
    destruct (Token.authorize s (Nat.pred (S (Token.calls s))))
      as [[tok d] e] eqn:Ea.
    unfold Token.step at 1. cbn [Token.pc Token.receivers]. rewrite Hc.
    eexists. eexists. split; [reflexivity|]. cbn.
    repeat split; auto.
  - (* InAuthorize *)
    unfold Token.step at 1. rewrite E.
    destruct (Token.authorize s (Nat.pred (Token.calls s)))
      as [[tok d] e] eqn:Ea.
    unfold Token.step at 1. cbn [Token.pc Token.receivers]. rewrite Hc.
    eexists. eexists. split; [reflexivity|]. cbn.
    repeat split; auto.
  - (* InSelect *)
    unfold Token.step at 1. rewrite E, Hc.
    destruct (Token.fetchlog s) as [|g rest] eqn:Ef; [congruence|].
    destruct Hs as [Ht [He [_ [Hx _]]]].
    eexists. exists g. split; [reflexivity|]. cbn.
    repeat split; auto.
    unfold f_resp. rewrite Ht, He, Hx. reflexivity.
Qed.

(** Client 7 enters [Get] before the goroutine has run: the first fetch
    and one send serve it. *)
Lemma X6_Token_waiting_client_served_witness :
  exists s s',
    Token.run (Token.NewToken false tokAB) [Token.GetBegin 7] = Some s /\
    Token.run s [Token.CallInitial; Token.AuthorizeReturns; Token.CaseSend 7]
    = Some s' /\
    hd_error (Token.readlog s') =
      Some (mkRead 7 0 (mkResp "tok-A"%string None) (Some (90 * Millisecond))).
Proof.
  eassert (E : Token.run (Token.NewToken false tokAB) [Token.GetBegin 7]
               = Some _) by (vm_compute; reflexivity).
  destruct (X6_Token_waiting_client_served _ _ _ 7%nat (ex_intro _ _ E))
    as [s' [g [Hrun [Hg [Hrd _]]]]].
  { left. reflexivity. }
  { discriminate. }
  eexists. exists s'. split; [exact E|]. split; [exact Hrun|].
  rewrite Hrd. vm_compute in Hrun. injection Hrun as <-.
  injection Hg as <-. reflexivity.
Defined.

Lemma MToken_run_app s tr1 tr2 :
  MToken.run s (tr1 ++ tr2) =
  match MToken.run s tr1 with
  | Some s1 => MToken.run s1 tr2
  | None => None
  end.
Proof.
  revert s. induction tr1 as [|e tr1 IH]; simpl; intros s; [reflexivity|].
  destruct (MToken.step s e); [apply IH | reflexivity].
Qed.

Lemma unpark_absent c l : ~ In c l -> unpark c l = l.
Proof.
  induction l as [|x l IH]; simpl; intros H; [reflexivity|].
  destruct (Nat.eqb c x) eqn:E.
  - apply Nat.eqb_eq in E. subst x. exfalso. apply H. now left.
  - simpl. f_equal. apply IH. intros Hin. apply H. now right.
Qed.

Lemma MToken_readers_step s e s' :
  readers_ok s -> MToken.step s e = Some s' -> readers_ok s'.
Proof.
  unfold readers_ok. intros Hn H.
  mtoken_step H; simpl; auto.
  - constructor; [|exact Hn]. intros Hin. apply parked_In in Hin.
    apply orb_false_iff in Heqb. destruct Heqb as [_ Hb]. congruence.
  - unfold unpark. now apply NoDup_filter.
Qed.

Lemma MToken_readers_run tr : forall s s',
  readers_ok s -> MToken.run s tr = Some s' -> readers_ok s'.
Proof.
  induction tr as [|e tr IH]; simpl; intros s s' Hn H.
  - now injection H as <-.
  - destruct (MToken.step s e) as [s1|] eqn:He; [|discriminate].
    eapply IH; [|exact H]. eapply MToken_readers_step; eauto.
Qed.

(** The clients that hold the read lock can all return, one after the
    other, also while the goroutine waits for the write lock. *)
Lemma MToken_drain l : forall s,
  MToken.readers s = l -> NoDup l ->
  exists s',
    MToken.run s (map MToken.GetReturns l) = Some s' /\
    MToken.readers s' = [] /\ MToken.pc s' = MToken.pc s /\
    MToken.writer s' = MToken.writer s /\ MToken.now s' = MToken.now s /\
    MToken.authorize s' = MToken.authorize s /\
    MToken.calls s' = MToken.calls s /\
    MToken.fetchlog s' = MToken.fetchlog s.
Proof.
  induction l as [|r l IH]; intros s Hl Hn.
  - exists s. simpl. repeat split; auto.
  - inversion Hn as [|? ? Hnotin Hn']; subst.
    cbn [map MToken.run]. unfold MToken.step at 1. rewrite Hl.
    cbn [parked existsb]. rewrite Nat.eqb_refl. cbn [orb].
    match goal with
    | |- exists s', MToken.run ?s1 _ = _ /\ _ =>
        destruct (IH s1) as [s' [Hrun H]]; [|exact Hn'|]
    end.
    + cbn [MToken.readers]. unfold unpark. cbn [filter].
      rewrite Nat.eqb_refl. cbn [negb]. apply (unpark_absent r l Hnotin).
    + exists s'. split; [exact Hrun|]. cbn in H. exact H.
Qed.

(** X7 ([MToken.Get] can always complete).  From every reachable state of
    an [MToken], whatever the goroutine is doing and also after it has
    returned, a client that is not inside [Get] can call [Get] and return,
    after at most one return of the Authorizer: if the goroutine waits for
    the write lock, the clients that hold the read lock return first.  The
    client's [Get] returns the fields as they then are. *)
Theorem X7_MToken_get_completes authFunc ctx auth s c :
  MToken.reachable authFunc ctx auth s -> ~ In c (MToken.readers s) ->
  exists s' rd,
    MToken.run s (get_schedule s c) = Some s' /\
    hd_error (MToken.readlog s') = Some rd /\
    r_client rd = c /\ r_time rd = MToken.now s /\
    r_resp rd = mkResp (MToken.token s') (MToken.tokenErr s') /\
    ~ In c (MToken.readers s') /\
    (MToken.calls s' <= S (MToken.calls s))%nat.
Proof.
  intros Hr Hc. pose proof (MInv_reachable _ _ _ _ Hr) as Hinv.
  destruct Hinv as [_ _ _ Hw Hrd _ _ _ _].
  assert (Hnd : readers_ok s).
  { destruct Hr as [tr Hrun].
    refine (MToken_readers_run tr _ _ _ Hrun). constructor. }
  assert (Hnp : parked c (MToken.readers s) = false).
  { destruct (parked c (MToken.readers s)) eqn:E; [|reflexivity].
    apply parked_In in E. contradiction. }
  assert (Hout : forall l, ~ In c (unpark c l)).
  { intros l Hin. apply parked_In in Hin. rewrite parked_unpark in Hin.
    discriminate. }
  unfold get_schedule.
  destruct (MToken.pc s) eqn:E; simpl in Hw.
  - (* AtStart *)
    cbn [MToken.run]. unfold MToken.step at 1. rewrite Hw, E, Hnp. cbn.
    rewrite Nat.eqb_refl. cbn.
    do 2 eexists. split; [reflexivity|]. cbn.
    repeat split; auto; try lia; try exact (Hout _).
  - (* WantLock: drain, lock, fetch, read *)
    destruct (MToken_drain _ s eq_refl Hnd)
      as [s1 [Hrun [Hr1 [Hp1 [Hw1 [Hn1 [Ha1 [Hc1 Hf1]]]]]]]].
    rewrite MToken_run_app, Hrun. cbn [MToken.run].
    unfold MToken.step at 1. rewrite Hp1, E, Hr1.
    unfold MToken.step at 1. cbn [MToken.pc MToken.authorize MToken.calls].
    destruct (MToken.authorize s1 (Nat.pred (S (MToken.calls s1))))
      as [[tok d] e] eqn:Ea.
    unfold MToken.step at 1. cbn. rewrite Nat.eqb_refl. cbn.
    do 2 eexists. split; [reflexivity|]. cbn.
    repeat split; auto; try lia; try exact (Hout _).
  - (* InAuthorize *)
    pose proof (Hrd Hw) as Hre.
    cbn [MToken.run]. unfold MToken.step at 1. rewrite E.
    destruct (MToken.authorize s (Nat.pred (MToken.calls s)))
      as [[tok d] e] eqn:Ea.
    unfold MToken.step at 1.
    cbn [MToken.writer MToken.pc MToken.readers pc_eqb orb]. rewrite Hre.
    cbn. rewrite Nat.eqb_refl. cbn.
    do 2 eexists. split; [reflexivity|]. cbn.
    repeat split; auto; try lia; try exact (Hout _).
  - (* InSelect *)
    cbn [MToken.run]. unfold MToken.step at 1. rewrite Hw, E, Hnp. cbn.
    rewrite Nat.eqb_refl. cbn.
    do 2 eexists. split; [reflexivity|]. cbn.
    repeat split; auto; try lia; try exact (Hout _).
  - (* Returned *)
    cbn [MToken.run]. unfold MToken.step at 1. rewrite Hw, E, Hnp. cbn.
    rewrite Nat.eqb_refl. cbn.
    do 2 eexists. split; [reflexivity|]. cbn.
    repeat split; auto; try lia; try exact (Hout _).
Qed.

(** Clients 1 and 2 hold the read lock when the timer fires and the
    goroutine asks for the write lock; client 3 cannot obtain the read lock
    at once, but after the two have returned and the refresh is done it
    reads "tok-B". *)
Lemma X7_MToken_get_completes_witness :
  exists s s',
    MToken.run (MToken.NewMToken tokAB false tokAB)
      [MToken.LockInitial; MToken.LockAcquired; MToken.AuthorizeReturns;
       MToken.RLock 1; MToken.RLock 2; MToken.Tick (90 * Millisecond);
       MToken.CaseExpired] = Some s /\
    MToken.step s (MToken.RLock 3) = None /\
    get_schedule s 3 =
      [MToken.GetReturns 2; MToken.GetReturns 1; MToken.LockAcquired;
       MToken.AuthorizeReturns; MToken.RLock 3; MToken.GetReturns 3] /\
    MToken.run s (get_schedule s 3) = Some s' /\
    hd_error (MToken.readlog s') =
      Some (mkRead 3 (90 * Millisecond) (mkResp "tok-B"%string None)
              (Some (180 * Millisecond))).
Proof.
  eassert (E : MToken.run (MToken.NewMToken tokAB false tokAB)
                 [MToken.LockInitial; MToken.LockAcquired;
                  MToken.AuthorizeReturns; MToken.RLock 1; MToken.RLock 2;
                  MToken.Tick (90 * Millisecond); MToken.CaseExpired]
               = Some _) by (vm_compute; reflexivity).
  destruct (X7_MToken_get_completes _ _ _ _ 3%nat (ex_intro _ _ E))
    as [s' [rd [Hrun [Hrd _]]]].
  { simpl. intros [H|[H|[]]]; discriminate. }
  eexists. exists s'. split; [exact E|]. split; [reflexivity|].
  split; [reflexivity|]. split; [exact Hrun|].
  vm_compute in Hrun. injection Hrun as <-. reflexivity.
Defined.

(** ** The simulated endpoint *)

Lemma hex_digit_code n :
  (n < 16)%N ->
  Ascii.N_of_ascii (AuthFunc.hex_digit n)
  = if (n <? 10)%N then (48 + n)%N else (87 + n)%N.
Proof.
  intros H. unfold AuthFunc.hex_digit.
  destruct (n <? 10)%N; apply Ascii.N_ascii_embedding; lia.
Qed.

Lemma hex_digit_ok n : (n < 16)%N -> AuthFunc.is_hex_digit (AuthFunc.hex_digit n) = true.
Proof.
  intros H. unfold AuthFunc.is_hex_digit. rewrite (hex_digit_code n H).
  destruct (N.ltb_spec n 10).
  - apply orb_true_iff. left. apply andb_true_iff.
    split; apply N.leb_le; lia.
  - apply orb_true_iff. right. apply andb_true_iff.
    split; apply N.leb_le; lia.
Qed.

Lemma hex_digit_inj n m :
  (n < 16)%N -> (m < 16)%N ->
  AuthFunc.hex_digit n = AuthFunc.hex_digit m -> n = m.
Proof.
  intros Hn Hm H. apply (f_equal Ascii.N_of_ascii) in H.
  rewrite (hex_digit_code n Hn), (hex_digit_code m Hm) in H.
  destruct (N.ltb_spec n 10), (N.ltb_spec m 10); lia.
Qed.

Lemma byte_nibbles x :
  (Byte.to_N x / 16 < 16)%N /\ (Byte.to_N x mod 16 < 16)%N.
Proof.
  pose proof (Byte.to_N_bounded x). split.
  - apply N.Div0.div_lt_upper_bound. lia.
  - apply N.mod_lt. discriminate.
Qed.

Lemma hex_length b : String.length (AuthFunc.hex b) = (2 * length b)%nat.
Proof. induction b as [|x b IH]; simpl; [reflexivity | rewrite IH; lia]. Qed.

Lemma hex_all_hex b : AuthFunc.all_hex (AuthFunc.hex b) = true.
Proof.
  induction b as [|x b IH]; [reflexivity|].
  destruct (byte_nibbles x) as [Hh Hl].
  cbn [AuthFunc.hex AuthFunc.all_hex].
  rewrite (hex_digit_ok _ Hh), (hex_digit_ok _ Hl), IH. reflexivity.
Qed.

(** X8 (what [authFunc] returns).  Whatever the call meets, [authFunc]
    reports a lifespan of 100ms, so that the cell arms its timer with 90ms.
    It returns a nil error exactly when [rand.Read] succeeded and the flag
    [tempError] is clear at l.324.  With a nil error the token is the
    buffer in lower-case hexadecimal, two digits for each byte; with an
    error the token is empty. *)
Theorem X8_authFunc_result env :
  AuthFunc.o_lifespan (AuthFunc.authFunc env) = 100 * Millisecond /\
  timer_arg (AuthFunc.o_lifespan (AuthFunc.authFunc env)) = 90 * Millisecond /\
  (AuthFunc.o_err (AuthFunc.authFunc env) = None <->
   AuthFunc.rand_err env = None /\ AuthFunc.load2 env = false) /\
  (AuthFunc.o_err (AuthFunc.authFunc env) = None ->
   AuthFunc.o_token (AuthFunc.authFunc env) = AuthFunc.hex (AuthFunc.rand_buf env) /\
   String.length (AuthFunc.o_token (AuthFunc.authFunc env))
   = (2 * length (AuthFunc.rand_buf env))%nat /\
   AuthFunc.all_hex (AuthFunc.o_token (AuthFunc.authFunc env)) = true) /\
  (AuthFunc.o_err (AuthFunc.authFunc env) <> None ->
   AuthFunc.o_token (AuthFunc.authFunc env) = EmptyString).
Proof.
  unfold AuthFunc.authFunc.
  destruct (AuthFunc.rand_err env) as [e|] eqn:Er;
    [|destruct (AuthFunc.load2 env) eqn:El]; cbn;
    repeat split; try discriminate; try tauto;
    try (intros [H1 H2]; discriminate);
    try apply hex_length; try apply hex_all_hex.
Qed.

(** X9 (tokens keep the random buffer).  The hexadecimal form that
    [authFunc] returns as token determines the buffer: two different
    buffers never yield the same token. *)
Theorem X9_hex_injective b1 : forall b2,
  AuthFunc.hex b1 = AuthFunc.hex b2 -> b1 = b2.
Proof.
  induction b1 as [|x b1 IH]; intros [|y b2] H; try discriminate.
  - reflexivity.
  - cbn [AuthFunc.hex] in H. injection H as Hh Hl Ht.
    destruct (byte_nibbles x) as [Hx1 Hx2].
    destruct (byte_nibbles y) as [Hy1 Hy2].
    assert (E1 : (Byte.to_N x / 16 = Byte.to_N y / 16)%N).
    { apply hex_digit_inj; assumption. }
    assert (E2 : (Byte.to_N x mod 16 = Byte.to_N y mod 16)%N).
    { apply hex_digit_inj; assumption. }
    assert (E : Byte.to_N x = Byte.to_N y).
    { rewrite (N.div_mod (Byte.to_N x) 16), (N.div_mod (Byte.to_N y) 16)
        by discriminate. now rewrite E1, E2. }
    assert (Exy : x = y).
    { pose proof (Byte.of_to_N x) as Hx. rewrite E, Byte.of_to_N in Hx.
      now injection Hx. }
    subst y. f_equal. now apply IH.
Qed.

(** The buffers [de ad] and [de ae] have different tokens, "dead" and
    "deae". *)
Lemma X9_hex_injective_witness :
  AuthFunc.hex [Byte.xde; Byte.xad] = "dead"%string /\
  [Byte.xde; Byte.xad] = [Byte.xde; Byte.xad] /\
  AuthFunc.hex [Byte.xde; Byte.xad] <> AuthFunc.hex [Byte.xde; Byte.xae].
Proof.
  split; [reflexivity|]. split.
  - apply (X9_hex_injective [Byte.xde; Byte.xad] [Byte.xde; Byte.xad]).
    reflexivity.
  - intros H. apply X9_hex_injective in H. discriminate.
Defined.

(** ** The cells driven by the simulated endpoint *)

Lemma as_authorizer_call envs k :
  exists tok e,
    AuthFunc.as_authorizer envs k = (tok, 100 * Millisecond, e) /\
    (e <> None -> tok = EmptyString) /\
    (e = None -> AuthFunc.all_hex tok = true).
Proof.
  unfold AuthFunc.as_authorizer, AuthFunc.authFunc.
  destruct (AuthFunc.rand_err (envs k)) as [e|];
    [|destruct (AuthFunc.load2 (envs k))]; cbn;
    do 2 eexists; (split; [reflexivity|]); split; try congruence;
    try reflexivity.
  intros _. apply hex_all_hex.
Qed.

Lemma as_authorizer_lifespan envs k :
  100 * Millisecond <= snd (fst (AuthFunc.as_authorizer envs k)) <= max_int64.
Proof.
  destruct (as_authorizer_call envs k) as [tok [e [-> _]]].
  vm_compute. split; discriminate.
Qed.

Lemma as_authorizer_margin_safe envs : margin_safe (AuthFunc.as_authorizer envs).
Proof.
  intros k. destruct (as_authorizer_call envs k) as [tok [e [-> _]]].
  vm_compute. split; discriminate.
Qed.

(** What a fetch of [authFunc] looks like in the log. *)
Lemma authFunc_fetch envs l f :
  log_ok (AuthFunc.as_authorizer envs) l -> In f l ->
  armed f = f_done f + 90 * Millisecond /\
  (f_err f <> None -> f_token f = EmptyString) /\
  (f_err f = None -> AuthFunc.all_hex (f_token f) = true).
Proof.
  intros Hl Hin. destruct (log_ok_In _ _ _ Hl Hin) as [_ Hf].
  destruct (as_authorizer_call envs (f_index f)) as [tok [e [Ha [He Hh]]]].
  rewrite Ha in Hf. injection Hf as -> Hv ->.
  split; [|split; assumption].
  unfold armed. rewrite <- Hv. reflexivity.
Qed.

(** X10 (the cells with [authFunc] as their Authorizer).  Let a cell call
    [authFunc], whatever each call meets.  Then every timer is armed 90ms
    after its fetch, successive fetches complete at least 90ms apart, a read
    that returns an error returns the empty token, a read without error
    returns lower-case hexadecimal digits only, and a read that completes
    before the timer's deadline is fresh.  This holds for a [Token] that is
    given [authFunc], and for every [MToken], which stores [authFunc]
    whatever it is given. *)
Theorem X10_cells_driven_by_authFunc envs :
  (forall ctx s,
     Token.reachable ctx (AuthFunc.as_authorizer envs) s ->
     spaced (90 * Millisecond) (Token.fetchlog s) /\
     (forall f, In f (Token.fetchlog s) ->
        armed f = f_done f + 90 * Millisecond) /\
     (forall rd, In rd (Token.readlog s) ->
        (Err (r_resp rd) <> None -> Token (r_resp rd) = EmptyString) /\
        (Err (r_resp rd) = None ->
         AuthFunc.all_hex (Token (r_resp rd)) = true) /\
        (before_deadline rd -> fresh (Token.fetchlog s) rd))) /\
  (forall ctx auth s,
     MToken.reachable (AuthFunc.as_authorizer envs) ctx auth s ->
     spaced (90 * Millisecond) (MToken.fetchlog s) /\
     (forall f, In f (MToken.fetchlog s) ->
        armed f = f_done f + 90 * Millisecond) /\
     (forall rd, In rd (MToken.readlog s) ->
        (Err (r_resp rd) <> None -> Token (r_resp rd) = EmptyString) /\
        (Err (r_resp rd) = None ->
         AuthFunc.all_hex (Token (r_resp rd)) = true) /\
        (before_deadline rd -> fresh (MToken.fetchlog s) rd))).
Proof.
  assert (Ha : forall k, lifeSpanSafetyMargin + 90 * Millisecond
                         <= snd (fst (AuthFunc.as_authorizer envs k))
                         <= max_int64).
  { intros k. exact (as_authorizer_lifespan envs k). }
  assert (Hq : 0 <= 90 * Millisecond) by (vm_compute; discriminate).
  split.
  - intros ctx s [tr Hrun].
    pose proof (TInv_run _ _ _ _ (TInv_init _ ctx) Hrun) as Hinv.
    destruct (Token_spacing_run _ _ tr _ _ Ha Hq (TInv_init _ ctx) Hrun)
      as [Hsp _].
    { split; [exact I|]. intros _ f rest E. discriminate. }
    destruct Hinv as [_ _ _ _ _ Hlog Hreads].
    split; [exact Hsp|]. split.
    + intros f Hf. apply (authFunc_fetch envs _ f Hlog Hf).
    + intros rd Hrd. rewrite Forall_forall in Hreads.
      pose proof (Hreads rd Hrd) as Hok.
      destruct Hok as [Ht [f [Hf [Hr Hrest]]]].
      destruct (authFunc_fetch envs _ f Hlog Hf) as [_ [He Hh]].
      rewrite Hr. cbn [f_resp Token Err].
      split; [exact He|]. split; [exact Hh|].
      intros Hb.
      apply (read_ok_fresh _ _ (Token.now s) rd
               (as_authorizer_margin_safe envs) Hlog (Hreads rd Hrd) Hb).
  - intros ctx auth s [tr Hrun].
    pose proof (MInv_run _ _ _ _ (MInv_init _ ctx auth) Hrun) as Hinv.
    destruct (MToken_spacing_run _ _ tr _ _ Ha Hq (MInv_init _ ctx auth) Hrun)
      as [Hsp _].
    { split; [exact I|]. intros _ f rest E. discriminate. }
    destruct Hinv as [_ _ _ _ _ _ _ Hlog Hreads].
    split; [exact Hsp|]. split.
    + intros f Hf. apply (authFunc_fetch envs _ f Hlog Hf).
    + intros rd Hrd. rewrite Forall_forall in Hreads.
      destruct (Hreads rd Hrd) as [[Hnone Hz]|Hok].
      * rewrite Hz. cbn [Token Err]. split; [congruence|].
        split; [reflexivity|].
        intros [dl [Hdl _]]. congruence.
      * pose proof Hok as [Ht [f [Hf [Hr Hrest]]]].
        destruct (authFunc_fetch envs _ f Hlog Hf) as [_ [He Hh]].
        rewrite Hr. cbn [f_resp Token Err].
        split; [exact He|]. split; [exact Hh|].
        intros Hb.
        apply (read_ok_fresh _ _ (MToken.now s) rd
                 (as_authorizer_margin_safe envs) Hlog Hok Hb).
Qed.

(** The first call yields "deadbeef00000001"; the refresh, 90ms later,
    meets the outage.  Client 1 reads the token, client 2 the error with an
    empty token, and the two fetches lie 98ms apart. *)
Lemma X10_cells_driven_by_authFunc_witness :
  exists s,
    Token.run (Token.NewToken false (AuthFunc.as_authorizer outage_after_first))
      [Token.CallInitial; Token.Tick (8 * Millisecond); Token.AuthorizeReturns;
       Token.GetBegin 1; Token.CaseSend 1; Token.Tick (90 * Millisecond);
       Token.CaseExpired; Token.Tick (8 * Millisecond); Token.AuthorizeReturns;
       Token.GetBegin 2; Token.CaseSend 2] = Some s /\
    map r_resp (Token.readlog s) =
      [mkResp EmptyString (Some "temporary API error"%string);
       mkResp "deadbeef00000001"%string None] /\
    map f_done (Token.fetchlog s) = [106 * Millisecond; 8 * Millisecond] /\
    spaced (90 * Millisecond) (Token.fetchlog s).
Proof.
  eassert (E : Token.run
                 (Token.NewToken false
                    (AuthFunc.as_authorizer outage_after_first))
                 [Token.CallInitial; Token.Tick (8 * Millisecond);
                  Token.AuthorizeReturns; Token.GetBegin 1; Token.CaseSend 1;
                  Token.Tick (90 * Millisecond); Token.CaseExpired;
                  Token.Tick (8 * Millisecond); Token.AuthorizeReturns;
                  Token.GetBegin 2; Token.CaseSend 2] = Some _)
    by (vm_compute; reflexivity).
  destruct (proj1 (X10_cells_driven_by_authFunc outage_after_first) false _
              (ex_intro _ _ E)) as [Hsp _].
  eexists. split; [exact E|]. split; [reflexivity|]. split; [reflexivity|].
  exact Hsp.
Defined.

(** ** Errors in the mutex-based cell *)




